(** * Coeus: a minimal local version-control engine (src/Coeus.mjs)

    Shallow embedding of the [Coeus] class and the properties of its object
    store, staging index, commit chain and history reconstruction.

    Modelling conventions.
    - A JavaScript string is modelled by the [string] of its UTF-8 bytes; every
      file is read and written with [encoding: 'utf-8'], so the file system
      [files] is a finite map from path to the text that such a read returns.
      [Disk.mount] gives this view of a disk of raw bytes: well-formed UTF-8
      is read as it is, every ill-formed part as U+FFFD.
    - Directories are not files of the map: a directory exists where a file
      lies below it, and [fs.mkdir] with [recursive] is taken to succeed; the
      properties of [init] and of writes into the object store state where
      that holds.  A file has one path: [path.join] is applied to a directory
      and a single segment, where it is concatenation with a separator.
    - The constructor starts [init] without awaiting it; [init] is modelled
      as a command of its own, and the other commands run on a repository
      where it has completed.
    - [async] methods run to completion one after the other; a method is a
      function from the world before the call to an outcome (a returned value
      or a thrown exception) and the world after it.
    - [console.log] and [process.stdout.write] append to the world's console.
    - [new Date().toISOString()] is an input of [commit]. *)

From Stdlib Require Import Ascii String NArith Lia.
From stdpp Require Import gmap strings list fin_maps.

(** ** SHA-1, as computed by [crypto.createHash('sha1')] (FIPS 180-4) *)

Module SHA1.

Local Open Scope N_scope.

Definition mask32 (x : N) : N := N.land x 0xFFFFFFFF.
Definition add32 (x y : N) : N := mask32 (x + y).
Definition not32 (x : N) : N := N.lxor x 0xFFFFFFFF.
Definition rotl (n x : N) : N :=
  N.lor (mask32 (N.shiftl x n)) (N.shiftr x (32 - n)).

Definition f (t : nat) (b c d : N) : N :=
  if (t <? 20)%nat then N.lor (N.land b c) (N.land (not32 b) d)
  else if (t <? 40)%nat then N.lxor (N.lxor b c) d
  else if (t <? 60)%nat then
    N.lor (N.lor (N.land b c) (N.land b d)) (N.land c d)
  else N.lxor (N.lxor b c) d.

Definition K (t : nat) : N :=
  if (t <? 20)%nat then 0x5A827999
  else if (t <? 40)%nat then 0x6ED9EBA1
  else if (t <? 60)%nat then 0x8F1BBCDC
  else 0xCA62C1D6.

(** Message padding: a 1 bit, zero bits up to 448 mod 512, then the
    message length in bits as a 64-bit big-endian integer. *)
Definition length_bytes (bits : N) : list N :=
  map (λ i, N.land (N.shiftr bits (8 * N.of_nat i)) 0xFF)
      [7; 6; 5; 4; 3; 2; 1; 0]%nat.

Definition pad (m : list N) : list N :=
  let l := length m in
  let zeros := ((64 - (l + 9) mod 64) mod 64)%nat in
  m ++ 0x80 :: replicate zeros 0 ++ length_bytes (8 * N.of_nat l).

Fixpoint words (bs : list N) : list N :=
  match bs with
  | a :: b :: c :: d :: rest =>
      N.lor (N.lor (N.shiftl a 24) (N.shiftl b 16))
            (N.lor (N.shiftl c 8) d) :: words rest
  | _ => []
  end.

(** Message schedule: [w] holds W(0..t-1); [n] more words are appended. *)
Fixpoint schedule (n : nat) (w : list N) : list N :=
  match n with
  | O => w
  | S n' =>
      let t := length w in
      let x := N.lxor (N.lxor (nth (t - 3) w 0) (nth (t - 8) w 0))
                      (N.lxor (nth (t - 14) w 0) (nth (t - 16) w 0)) in
      schedule n' (w ++ [rotl 1 x])
  end.

Definition state : Type := N * N * N * N * N.

Definition round (s : state) (tw : nat * N) : state :=
  let '(a, b, c, d, e) := s in
  let '(t, w) := tw in
  let tmp := add32 (add32 (add32 (add32 (rotl 5 a) (f t b c d)) e) w) (K t) in
  (tmp, a, rotl 30 b, c, d).

Definition compress (h : state) (block : list N) : state :=
  let w := schedule 64 block in
  let '(a, b, c, d, e) := foldl round h (zip (seq 0 80) w) in
  let '(h0, h1, h2, h3, h4) := h in
  (add32 h0 a, add32 h1 b, add32 h2 c, add32 h3 d, add32 h4 e).

Fixpoint process (fuel : nat) (ws : list N) (h : state) : state :=
  match fuel, ws with
  | S fuel', _ :: _ => process fuel' (drop 16 ws) (compress h (take 16 ws))
  | _, _ => h
  end.

Definition initial : state :=
  (0x67452301, 0xEFCDAB89, 0x98BADCFE, 0x10325476, 0xC3D2E1F0).

Definition bytes_of (s : string) : list N :=
  map (λ b, Ascii.N_of_ascii (Ascii.ascii_of_byte b))
      (String.list_byte_of_string s).

Definition digest (s : string) : state :=
  let ws := words (pad (bytes_of s)) in
  process (length ws) ws initial.

Definition hex_digit (x : N) : ascii :=
  let d := N.land x 0xF in
  Ascii.ascii_of_N (if d <? 10 then 48 + d else 87 + d).

Definition hex8 (x : N) : string :=
  String (hex_digit (N.shiftr x 28)) (String (hex_digit (N.shiftr x 24))
 (String (hex_digit (N.shiftr x 20)) (String (hex_digit (N.shiftr x 16))
 (String (hex_digit (N.shiftr x 12)) (String (hex_digit (N.shiftr x 8))
 (String (hex_digit (N.shiftr x 4)) (String (hex_digit x) EmptyString))))))).

Definition hexdigest (s : string) : string :=
  let '(h0, h1, h2, h3, h4) := digest s in
  hex8 h0 +:+ hex8 h1 +:+ hex8 h2 +:+ hex8 h3 +:+ hex8 h4.

End SHA1.

(** ** JSON text, as written by [JSON.stringify] and read by [JSON.parse]

    Values are [null], booleans, strings, arrays and objects.  An object is
    the sequence of its members in textual order.  The program never writes a
    number, and this model of [JSON.parse] rejects number literals and escapes
    of surrogates; it does not merge repeated keys.  On the texts the program
    writes (records and file entries with string fields) it reads what
    [JSON.parse] reads, and the properties that start from an index or a
    stored object are stated for those; the properties about rejected input
    are stated for a missing file or a text that cannot begin a JSON value. *)

Module JSON.

#[local] Unset Elimination Schemes.

Inductive value : Type :=
| Null
| Bool (b : bool)
| Str (s : string)
| Arr (items : list value)
| Obj (members : list (string * value)).

#[local] Set Elimination Schemes.

Definition dquote : ascii := "034"%char.
Definition code (c : ascii) : N := Ascii.N_of_ascii c.
Definition char (n : N) : ascii := Ascii.ascii_of_N n.

(** *** Serialisation *)

Definition escape_char (c : ascii) : string :=
  match code c with
  | 34%N => String "\" (String dquote "")
  | 92%N => "\\"
  | 8%N => "\b"
  | 12%N => "\f"
  | 10%N => "\n"
  | 13%N => "\r"
  | 9%N => "\t"
  | n =>
      if (n <? 32)%N
      then "\u00" +:+ String (SHA1.hex_digit (N.shiftr n 4))
                             (String (SHA1.hex_digit n) "")
      else String c ""
  end.

Fixpoint escape (s : string) : string :=
  match s with
  | EmptyString => ""
  | String c r => escape_char c +:+ escape r
  end.

Definition quote (s : string) : string :=
  String dquote (escape s +:+ String dquote "").

Fixpoint join (sep : string) (l : list string) : string :=
  match l with
  | [] => ""
  | [x] => x
  | x :: rest => x +:+ sep +:+ join sep rest
  end.

Fixpoint stringify (v : value) : string :=
  match v with
  | Null => "null"
  | Bool true => "true"
  | Bool false => "false"
  | Str s => quote s
  | Arr items => "[" +:+ join "," (map stringify items) +:+ "]"
  | Obj members =>
      "{" +:+ join "," (map (λ kx, quote kx.1 +:+ ":" +:+ stringify kx.2) members)
          +:+ "}"
  end.

Definition member_text (kx : string * value) : string :=
  quote kx.1 +:+ ":" +:+ stringify kx.2.

(** *** Parsing *)

Definition is_ws (c : ascii) : bool :=
  match code c with
  | 32%N | 9%N | 10%N | 13%N => true
  | _ => false
  end.

Fixpoint skip_ws (s : string) : string :=
  match s with
  | String c r => if is_ws c then skip_ws r else s
  | EmptyString => s
  end.

Definition hex_value (c : ascii) : option N :=
  let n := code c in
  if ((48 <=? n) && (n <=? 57))%N then Some (n - 48)%N
  else if ((97 <=? n) && (n <=? 102))%N then Some (n - 87)%N
  else if ((65 <=? n) && (n <=? 70))%N then Some (n - 55)%N
  else None.

Definition hex4 (a b c d : ascii) : option N :=
  x3 ← hex_value a; x2 ← hex_value b; x1 ← hex_value c; x0 ← hex_value d;
  Some (4096 * x3 + 256 * x2 + 16 * x1 + x0)%N.

(** UTF-8 bytes of the code unit of a [\uXXXX] escape.  Surrogate code
    units have no UTF-8 form and are rejected. *)
Definition utf8 (n : N) : option string :=
  if (n <? 0x80)%N then Some (String (char n) "")
  else if (n <? 0x800)%N then
    Some (String (char (N.lor 0xC0 (N.shiftr n 6)))
         (String (char (N.lor 0x80 (N.land n 0x3F))) ""))
  else if ((0xD800 <=? n) && (n <=? 0xDFFF))%N then None
  else
    Some (String (char (N.lor 0xE0 (N.shiftr n 12)))
         (String (char (N.lor 0x80 (N.land (N.shiftr n 6) 0x3F)))
         (String (char (N.lor 0x80 (N.land n 0x3F))) ""))).

Definition unescape (e : ascii) : option ascii :=
  match code e with
  | 34%N => Some dquote
  | 92%N => Some "\"%char
  | 47%N => Some "/"%char
  | 98%N => Some (char 8)
  | 102%N => Some (char 12)
  | 110%N => Some (char 10)
  | 114%N => Some (char 13)
  | 116%N => Some (char 9)
  | _ => None
  end.

Definition prepend (p : string) (r : option (string * string))
  : option (string * string) :=
  '(s, rest) ← r; Some (p +:+ s, rest).

(** The characters of a string literal after its opening quote, up to and
    including the closing quote. *)
Fixpoint parse_chars (s : string) : option (string * string) :=
  match s with
  | EmptyString => None
  | String c r =>
      if (code c =? 34)%N then Some ("", r)
      else if (code c =? 92)%N then
        match r with
        | String e r1 =>
            if (code e =? 117)%N then
              match r1 with
              | String h3 (String h2 (String h1 (String h0 r2))) =>
                  n ← hex4 h3 h2 h1 h0;
                  p ← utf8 n;
                  prepend p (parse_chars r2)
              | _ => None
              end
            else
              x ← unescape e;
              prepend (String x "") (parse_chars r1)
        | EmptyString => None
        end
      else if (code c <? 32)%N then None
      else prepend (String c "") (parse_chars r)
  end.

Fixpoint strip (lit s : string) : option string :=
  match lit, s with
  | EmptyString, _ => Some s
  | String a lit', String b s' => if (code a =? code b)%N then strip lit' s' else None
  | String _ _, EmptyString => None
  end.

Fixpoint parse_value (fuel : nat) (s : string) : option (value * string) :=
  match fuel with
  | O => None
  | S fuel' =>
      match skip_ws s with
      | String c r =>
          if (code c =? 110)%N then r' ← strip "ull" r; Some (Null, r')
          else if (code c =? 116)%N then r' ← strip "rue" r; Some (Bool true, r')
          else if (code c =? 102)%N then r' ← strip "alse" r; Some (Bool false, r')
          else if (code c =? 34)%N then
            '(x, r') ← parse_chars r; Some (Str x, r')
          else if (code c =? 91)%N then
            match skip_ws r with
            | String c' r' =>
                if (code c' =? 93)%N then Some (Arr [], r')
                else '(l, r'') ← parse_elements fuel' r; Some (Arr l, r'')
            | EmptyString => None
            end
          else if (code c =? 123)%N then
            match skip_ws r with
            | String c' r' =>
                if (code c' =? 125)%N then Some (Obj [], r')
                else '(l, r'') ← parse_members fuel' r; Some (Obj l, r'')
            | EmptyString => None
            end
          else None
      | EmptyString => None
      end
  end
with parse_elements (fuel : nat) (s : string) : option (list value * string) :=
  match fuel with
  | O => None
  | S fuel' =>
      '(v, r) ← parse_value fuel' s;
      match skip_ws r with
      | String c r' =>
          if (code c =? 44)%N then
            '(l, r'') ← parse_elements fuel' r'; Some (v :: l, r'')
          else if (code c =? 93)%N then Some ([v], r')
          else None
      | EmptyString => None
      end
  end
with parse_members (fuel : nat) (s : string)
  : option (list (string * value) * string) :=
  match fuel with
  | O => None
  | S fuel' =>
      match skip_ws s with
      | String c r =>
          if (code c =? 34)%N then
            '(k, r1) ← parse_chars r;
            match skip_ws r1 with
            | String c1 r2 =>
                if (code c1 =? 58)%N then
                  '(v, r3) ← parse_value fuel' r2;
                  match skip_ws r3 with
                  | String c3 r4 =>
                      if (code c3 =? 44)%N then
                        '(l, r5) ← parse_members fuel' r4; Some ((k, v) :: l, r5)
                      else if (code c3 =? 125)%N then Some ([(k, v)], r4)
                      else None
                  | EmptyString => None
                  end
                else None
            | EmptyString => None
            end
          else None
      | EmptyString => None
      end
  end.

(** The fuel [parse_value] needs to read back [stringify v]. *)
Fixpoint size (v : value) : nat :=
  match v with
  | Arr items => S (sum_list (map (λ x, S (size x)) items))
  | Obj members => S (sum_list (map (λ kx, S (size kx.2)) members))
  | _ => 1
  end.

(** [JSON.parse]: [None] stands for a thrown [SyntaxError]. *)
Definition parse (s : string) : option value :=
  '(v, r) ← parse_value (S (2 * String.length s)) s;
  match skip_ws r with
  | EmptyString => Some v
  | String _ _ => None
  end.

End JSON.

(** ** The world a command runs in: the file system and the console *)

Inductive Exn : Type :=
| ENOENT (path : string)   (* [fs.readFile] on a path that holds no file *)
| EEXIST (path : string)   (* [fs.writeFile] with flag [wx] on an existing file *)
| SyntaxError              (* [JSON.parse] on text that is not JSON *)
| TypeError.               (* property of [null]/[undefined], non-iterable, ... *)

Inductive Colour : Type := Green | Red | Grey.

Inductive Event : Type :=
| Log (line : string)                  (* [console.log(line)] *)
| LogError (line : string) (e : Exn)   (* [console.log(line, error)] *)
| Write (c : Colour) (text : string).  (* [process.stdout.write(chalk.c(text))] *)

Record World : Type := mkWorld {
  files : gmap string string;
  console : list Event
}.

Inductive Outcome (A : Type) : Type :=
| Returned (a : A)
| Thrown (e : Exn).
Arguments Returned {A} a.
Arguments Thrown {A} e.

Definition M (A : Type) : Type := World → Outcome A * World.

Definition ret {A} (a : A) : M A := λ w, (Returned a, w).
Definition throw {A} (e : Exn) : M A := λ w, (Thrown e, w).
Definition bind {A B} (m : M A) (k : A → M B) : M B :=
  λ w, match m w with
       | (Returned a, w') => k a w'
       | (Thrown e, w') => (Thrown e, w')
       end.
Definition try_catch {A} (m : M A) (handler : Exn → M A) : M A :=
  λ w, match m w with
       | (Returned a, w') => (Returned a, w')
       | (Thrown e, w') => handler e w'
       end.

Notation "x <- m ;; k" := (bind m (λ x, k))
  (at level 100, m at next level, right associativity).
Notation "m ;; k" := (bind m (λ _, k))
  (at level 100, right associativity).

Fixpoint for_each {A} (body : A → M unit) (l : list A) : M unit :=
  match l with
  | [] => ret tt
  | x :: rest => body x ;; for_each body rest
  end.

(** [fs.readFile(path, {encoding: 'utf-8'})]: the text at [path] in the
    decoded view of the disk, or [ENOENT]. *)
Definition readFile (path : string) : M string :=
  λ w, match files w !! path with
       | Some text => (Returned text, w)
       | None => (Thrown (ENOENT path), w)
       end.

Definition writeFile (path text : string) : M unit :=
  λ w, (Returned tt, mkWorld (<[path := text]> (files w)) (console w)).

Definition writeFile_wx (path text : string) : M unit :=
  λ w, match files w !! path with
       | Some _ => (Thrown (EEXIST path), w)
       | None => writeFile path text w
       end.

Definition emit (e : Event) : M unit :=
  λ w, (Returned tt, mkWorld (files w) (console w ++ [e])).

Definition console_log (line : string) : M unit := emit (Log line).

(** ** JavaScript values read back from JSON

    A value is a [JSON.value], or [undefined] ([None]). *)

Definition JsValue : Type := option JSON.value.

Definition truthy (v : JsValue) : bool :=
  match v with
  | None | Some JSON.Null => false
  | Some (JSON.Bool b) => b
  | Some (JSON.Str s) => match s with EmptyString => false | String _ _ => true end
  | Some (JSON.Arr _) | Some (JSON.Obj _) => true
  end.

(** The member an object ends up with after [JSON.parse]: the last one of
    that name. *)
Fixpoint member (k : string) (ms : list (string * JSON.value)) : JsValue :=
  match ms with
  | [] => None
  | (k', x) :: rest =>
      match member k rest with
      | Some y => Some y
      | None => if decide (k = k') then Some x else None
      end
  end.

(** [v.k] for the property names this program reads ([timestamp], [message],
    [files], [parent], [path], [hash]); only objects have them. *)
Definition prop (v : JsValue) (k : string) : M JsValue :=
  match v with
  | None | Some JSON.Null => throw TypeError
  | Some (JSON.Obj ms) => ret (member k ms)
  | Some _ => ret None
  end.

(** [a === b] on values that come from different [JSON.parse] calls:
    arrays and objects are never identical. *)
Definition strict_eq (a b : JsValue) : bool :=
  match a, b with
  | None, None => true
  | Some JSON.Null, Some JSON.Null => true
  | Some (JSON.Bool x), Some (JSON.Bool y) => bool_decide (x = y)
  | Some (JSON.Str x), Some (JSON.Str y) => bool_decide (x = y)
  | _, _ => false
  end.

(** String conversion inside a template literal. *)
Fixpoint to_string (v : JSON.value) : string :=
  match v with
  | JSON.Null => "null"
  | JSON.Bool true => "true"
  | JSON.Bool false => "false"
  | JSON.Str s => s
  | JSON.Arr items =>
      JSON.join ","
        (map (λ x, match x with JSON.Null => "" | _ => to_string x end) items)
  | JSON.Obj _ => "[object Object]"
  end.

Definition template (v : JsValue) : string :=
  match v with
  | None => "undefined"
  | Some x => to_string x
  end.

(** The values a [for ... of] loop takes; a string yields its characters
    (taken bytewise here). *)
Definition iterate (v : JsValue) : M (list JSON.value) :=
  match v with
  | Some (JSON.Arr items) => ret items
  | Some (JSON.Str s) =>
      ret (map (λ c, JSON.Str (String c "")) (list_ascii_of_string s))
  | _ => throw TypeError
  end.

(** [JSON.parse(x)]; a [null] argument is converted to the text "null". *)
Definition JSON_parse (x : option string) : M JSON.value :=
  match JSON.parse (default "null" x) with
  | Some v => ret v
  | None => throw SyntaxError
  end.

(** ** The diff package's change objects *)

Record Change : Type := mkChange {
  value : string;
  added : bool;
  removed : bool
}.

(** ** The [Coeus] class *)

Module Coeus.

Definition LF : string := String "010"%char "".

(** [path.join(dir, name)] for a [name] that is a single, non-empty path
    segment (a fixed name or a hex digest): no normalisation takes place. *)
Definition path_join (dir name : string) : string := dir +:+ "/" +:+ name.

(** The names for which this holds: no separator, not empty, not a dot name.
    Every hex digest is one. *)
Definition segment (name : string) : bool :=
  negb (bool_decide (name = "")) && negb (bool_decide (name = "."))
  && negb (bool_decide (name = ".."))
  && forallb (λ c, negb (bool_decide (c = "/"%char))) (list_ascii_of_string name).

(** The constructor's fields, for the default [repoPath = '.']. *)
Definition repoPath : string := ".coeus".
Definition objectsPath : string := path_join repoPath "objects".
Definition headPath : string := path_join repoPath "HEAD".
Definition indexPath : string := path_join repoPath "index".

(** [path.join(objectsPath, x)] throws unless [x] is a string. *)
Definition objectPath (x : JsValue) : M string :=
  match x with
  | Some (JSON.Str h) => ret (path_join objectsPath h)
  | _ => throw TypeError
  end.

(** [fs.mkdir(objectsPath, {recursive: true})] creates directories only,
    which the file map does not record. *)
Definition init : M unit :=
  try_catch
    (writeFile_wx headPath "" ;;
     writeFile_wx indexPath (JSON.stringify (JSON.Arr [])))
    (λ _, console_log "Already initialised the .coeus folder").

Definition hashObject (content : string) : string := SHA1.hexdigest content.

(** The object literal [{path: filePath, hash: fileHash}]. *)
Definition fileEntry (filePath fileHash : string) : JSON.value :=
  JSON.Obj [("path", JSON.Str filePath); ("hash", JSON.Str fileHash)].

Definition updateStagingArea (filePath fileHash : string) : M unit :=
  text <- readFile indexPath ;;
  index <- JSON_parse (Some text) ;;
  match index with
  | JSON.Arr items =>
      writeFile indexPath
        (JSON.stringify (JSON.Arr (items ++ [fileEntry filePath fileHash])))
  | _ => throw TypeError   (* [index.push] is not a function *)
  end.

Definition add (fileToBeAdded : string) : M unit :=
  fileData <- readFile fileToBeAdded ;;
  let fileHash := hashObject fileData in
  let newFileHashedObjectPath := path_join objectsPath fileHash in
  writeFile newFileHashedObjectPath fileData ;;
  updateStagingArea fileToBeAdded fileHash ;;
  console_log ("Added " +:+ fileToBeAdded).

(** The head file's text, or [null] ([None]) when it cannot be read. *)
Definition getCurrentHead : M (option string) :=
  try_catch (text <- readFile headPath ;; ret (Some text))
            (λ _, ret None).

Definition commitRecord (timestamp message : string) (index : JSON.value)
    (parentCommit : option string) : JSON.value :=
  JSON.Obj [("timestamp", JSON.Str timestamp);
            ("message", JSON.Str message);
            ("files", index);
            ("parent", match parentCommit with
                       | Some h => JSON.Str h
                       | None => JSON.Null
                       end)].

(** [now] is the value of [new Date().toISOString()]. *)
Definition commit (now message : string) : M unit :=
  text <- readFile indexPath ;;
  index <- JSON_parse (Some text) ;;
  parentCommit <- getCurrentHead ;;
  let commitData := commitRecord now message index parentCommit in
  let commitHash := hashObject (JSON.stringify commitData) in
  let commitPath := path_join objectsPath commitHash in
  writeFile commitPath (JSON.stringify commitData) ;;
  writeFile headPath commitHash ;;
  writeFile indexPath (JSON.stringify (JSON.Arr [])) ;;
  console_log ("Commit successfully created: " +:+ commitHash).

(** The [while] loop of [log], run for at most [fuel] iterations. *)
Inductive Loop : Type := Finished | Running.

Definition log_separator : string := "X---------------X--------------X" +:+ LF.

Definition log_entry (currentCommitHash : string) (timestamp message : JsValue)
  : string :=
  "Commit: " +:+ currentCommitHash +:+ LF +:+ "Date: " +:+ template timestamp
    +:+ LF +:+ LF +:+ template message +:+ LF +:+ LF.

Fixpoint log_loop (fuel : nat) (currentCommitHash : JsValue) : M Loop :=
  if truthy currentCommitHash then
    match fuel with
    | O => ret Running
    | S fuel' =>
        commitPath <- objectPath currentCommitHash ;;
        text <- readFile commitPath ;;
        commitData <- JSON_parse (Some text) ;;
        console_log log_separator ;;
        timestamp <- prop (Some commitData) "timestamp" ;;
        message <- prop (Some commitData) "message" ;;
        console_log (log_entry (template currentCommitHash) timestamp message) ;;
        parent <- prop (Some commitData) "parent" ;;
        log_loop fuel' parent
    end
  else ret Finished.

Definition log (fuel : nat) : M Loop :=
  head <- getCurrentHead ;;
  log_loop fuel (JSON.Str <$> head).

Definition getFileContent (fileHash : JsValue) : M string :=
  objectPath' <- objectPath fileHash ;;
  readFile objectPath'.

Definition getCommitData (commithash : JsValue) : M (option string) :=
  commitPath <- objectPath commithash ;;
  try_catch (text <- readFile commitPath ;; ret (Some text))
            (λ error, emit (LogError "Failed to read the commit data" error) ;;
                      ret None).

Fixpoint find_path (filePath : JsValue) (l : list JSON.value) : M JsValue :=
  match l with
  | [] => ret None
  | file :: rest =>
      p <- prop (Some file) "path" ;;
      if strict_eq p filePath then ret (Some file) else find_path filePath rest
  end.

(** Returns [undefined] ([None]) when no entry of the parent has the path. *)
Definition getParentFileContent (parentCommitData : JSON.value)
    (filePath : JsValue) : M (option string) :=
  parentFiles <- prop (Some parentCommitData) "files" ;;
  match parentFiles with
  | Some (JSON.Arr items) =>
      parentFile <- find_path filePath items ;;
      if truthy parentFile then
        h <- prop parentFile "hash" ;;
        content <- getFileContent h ;;
        ret (Some content)
      else ret None
  | _ => throw TypeError   (* [files.find] is not a function *)
  end.

Section Show.

(** [diffLines] is imported from the [diff] package. *)
Variable diffLines : string → string → list Change.

Definition writePart (part : Change) : M unit :=
  if added part then emit (Write Green ("++" +:+ value part))
  else if removed part then emit (Write Red ("--" +:+ value part))
  else emit (Write Grey (value part)).

(** The body of the [for] loop of [showCommitDiff]. *)
Definition showFile (commitData : JSON.value) (file : JSON.value) : M unit :=
  filePath <- prop (Some file) "path" ;;
  console_log ("File: " +:+ template filePath) ;;
  fileHash <- prop (Some file) "hash" ;;
  fileContent <- getFileContent fileHash ;;
  console_log fileContent ;;
  parent <- prop (Some commitData) "parent" ;;
  if truthy parent then
    parentText <- getCommitData parent ;;
    parentCommitData <- JSON_parse parentText ;;
    parentFileContent <- getParentFileContent parentCommitData filePath ;;
    match parentFileContent with
    | Some old =>
        console_log (LF +:+ "Diff:") ;;
        for_each writePart (diffLines old fileContent) ;;
        console_log ""
    | None => console_log "New file in this commit"
    end
  else console_log "First commit".

Definition showCommitDiff (commitHash : string) : M unit :=
  text <- getCommitData (Some (JSON.Str commitHash)) ;;
  commitData <- JSON_parse text ;;
  if negb (truthy (Some commitData)) then console_log "Commit not found"
  else
    console_log "Changes in the last commit are: " ;;
    commitFiles <- prop (Some commitData) "files" ;;
    items <- iterate commitFiles ;;
    for_each (showFile commitData) items.

End Show.

(** *** Vocabulary for the properties *)

(** The files of the objects directory. *)
Fixpoint starts_with (pre s : string) : bool :=
  match pre, s with
  | EmptyString, _ => true
  | String a pre', String b s' => bool_decide (a = b) && starts_with pre' s'
  | String _ _, EmptyString => false
  end.

Definition is_object_path (p : string) : bool :=
  starts_with (objectsPath +:+ "/") p.

Definition object_store (w : World) : gmap string string :=
  filter (λ kv, is_object_path kv.1 = true) (files w).

(** The staging index and a stored commit, as the program reads them. *)
Definition stagingIndex (w : World) : option JSON.value :=
  files w !! indexPath ≫= JSON.parse.

Definition storedObject (w : World) (h : string) : option JSON.value :=
  files w !! path_join objectsPath h ≫= JSON.parse.

(** The repository that [init] creates in a directory without [.coeus]. *)
Definition fresh : World := (init (mkWorld ∅ [])).2.

(** Repeated [commit] calls, each with its clock reading and message. *)
Definition commits (calls : list (string * string)) : M unit :=
  for_each (λ call, commit call.1 call.2) calls.

(** The commits that [calls] create on top of head [hd] when nothing is
    staged, newest first, each with its digest; [acc] holds the older ones. *)
Fixpoint history (acc : list (string * JSON.value)) (hd : string)
    (calls : list (string * string)) : list (string * JSON.value) :=
  match calls with
  | [] => acc
  | call :: rest =>
      let commitData := commitRecord call.1 call.2 (JSON.Arr []) (Some hd) in
      let commitHash := hashObject (JSON.stringify commitData) in
      history ((commitHash, commitData) :: acc) commitHash rest
  end.

(** What [commit] prints for the commit it created. *)
Definition created (c : string * JSON.value) : Event :=
  Log ("Commit successfully created: " +:+ c.1).

(** What [log] prints for one commit. *)
Definition log_lines (c : string * JSON.value) : list Event :=
  match c.2 with
  | JSON.Obj members =>
      [Log log_separator;
       Log (log_entry c.1 (member "timestamp" members) (member "message" members))]
  | _ => []
  end.

(** [walkable fs v l]: starting at [v] and following [parent] members
    through the objects stored in [fs] meets exactly the commits [l], then a
    falsy value. *)
Inductive walkable (fs : gmap string string)
  : JsValue → list (string * JSON.value) → Prop :=
| walk_end (v : JsValue) : truthy v = false → walkable fs v []
| walk_step (h : string) (members : list (string * JSON.value))
    (rest : list (string * JSON.value)) :
    h ≠ "" →
    fs !! path_join objectsPath h = Some (JSON.stringify (JSON.Obj members)) →
    walkable fs (member "parent" members) rest →
    walkable fs (Some (JSON.Str h)) ((h, JSON.Obj members) :: rest).

End Coeus.

(** ** The diff engine

    Modelled from the spec: the body of [diffLines], which the program imports
    from the [diff] package and whose code is not part of this repository.
    The spec describes it as a longest-common-subsequence line diff: both
    texts are split into lines, a minimal edit script is found, and runs of
    consecutive lines of the same kind are coalesced into one segment. *)

Module Diff.

Inductive Kind : Type := Added | Removed | Unchanged.

Record Segment : Type := mkSegment { kind : Kind; text : string }.

#[global] Instance Kind_eq_dec : EqDecision Kind.
Proof. solve_decision. Defined.

(** A line keeps its terminating newline; the last line may lack one. *)
Fixpoint split_lines (s : string) : list string :=
  match s with
  | EmptyString => []
  | String c r =>
      if bool_decide (c = "010"%char) then String c "" :: split_lines r
      else match split_lines r with
           | [] => [String c ""]
           | l :: ls => String c l :: ls
           end
  end.

(** The text that a sequence of lines spells. *)
Fixpoint concat_lines (ls : list string) : string :=
  match ls with
  | [] => ""
  | l :: rest => l +:+ concat_lines rest
  end.

(** Number of added and removed lines of an edit script. *)
Definition cost (script : list (Kind * string)) : nat :=
  length (filter (λ e, e.1 ≠ Unchanged) script).

(** A minimal edit script: common first lines are kept; otherwise the
    cheaper of removing the old line and adding the new one is taken. *)
Fixpoint edit_script (old : list string) : list string → list (Kind * string) :=
  fix against (new : list string) : list (Kind * string) :=
    match old, new with
    | [], _ => map (pair Added) new
    | _, [] => map (pair Removed) old
    | a :: old', b :: new' =>
        if bool_decide (a = b) then (Unchanged, a) :: edit_script old' new'
        else
          let removal := (Removed, a) :: edit_script old' new in
          let addition := (Added, b) :: against new' in
          if (cost addition <? cost removal)%nat then addition else removal
    end.

Fixpoint coalesce (script : list (Kind * string)) : list Segment :=
  match script with
  | [] => []
  | (k, l) :: rest =>
      match coalesce rest with
      | seg :: segs =>
          if bool_decide (kind seg = k)
          then mkSegment k (l +:+ text seg) :: segs
          else mkSegment k l :: seg :: segs
      | [] => [mkSegment k l]
      end
  end.

(** Modelled from the spec: [diffLines] of the [diff] package, whose code is
    not in the repository: split both texts into lines, take a minimal edit
    script, coalesce runs of lines of the same kind. *)
Definition diffLines (oldText newText : string) : list Segment :=
  coalesce (edit_script (split_lines oldText) (split_lines newText)).

End Diff.


(** ** A worked scenario *)

Module Scenario.
Import Coeus.

Definition t1 : string := "2024-01-01T10:00:00.000Z".
Definition t2 : string := "2024-01-02T10:00:00.000Z".

(** A working tree with two files next to a freshly initialised repository. *)
Definition tree : World :=
  mkWorld (<["a.txt" := "hello"]>
             (<["b.txt" := "world"]> (<["copy.txt" := "hello"]> (files fresh)))) [].

(** [add a.txt; commit first], then [add b.txt; commit second]. *)
Definition two_commits : World :=
  ((add "a.txt" ;; commit t1 "first" ;; add "b.txt" ;; commit t2 "second") tree).2.

(** [add a.txt; commit first], an edit of [a.txt], then
    [add a.txt; commit second]. *)
Definition edited : World :=
  ((add "a.txt" ;; commit t1 "first" ;; writeFile "a.txt" "hello again" ;;
    add "a.txt" ;; commit t2 "second") tree).2.

(** A working tree without a repository, and a directory with nothing. *)
Definition bare : World := mkWorld {["a.txt" := "hello"]} [].
Definition nothing : World := mkWorld ∅ [].

(** The two commits of [two_commits], and that repository with the object
    of the first commit lost. *)
Definition commit_one : JSON.value :=
  commitRecord t1 "first" (JSON.Arr [fileEntry "a.txt" (hashObject "hello")]) (Some "").
Definition commit_two : JSON.value :=
  commitRecord t2 "second" (JSON.Arr [fileEntry "b.txt" (hashObject "world")])
               (Some (hashObject (JSON.stringify commit_one))).

(** A diff engine that reports the new text as one added change. *)
Definition all_added (oldText newText : string) : list Change :=
  [mkChange newText true false].

(** [a.txt] staged; that repository with the index file lost. *)
Definition staged : World := (add "a.txt" tree).2.
Definition lost_index : World := mkWorld (delete indexPath (files staged)) [].

Definition first_commit : JSON.value :=
  commitRecord t1 "first" (JSON.Arr [fileEntry "a.txt" (hashObject "hello")]) (Some "").

End Scenario.

(** ** Sessions: method calls made one after the other *)

Module Session.
Import Coeus.

(** The event [writePart] emits for one change of a diff. *)
Definition rendered (part : Change) : Event :=
  if added part then Write Green ("++" +:+ value part)
  else if removed part then Write Red ("--" +:+ value part)
  else Write Grey (value part).

(** A computation that leaves every file as it was, whatever its outcome. *)
Definition ReadOnly {A} (m : M A) : Prop := ∀ w, files (m w).2 = files w.


(** A computation that removes no file, whatever its outcome. *)
Definition KeepsFiles {A} (m : M A) : Prop :=
  ∀ w k, is_Some (files w !! k) → is_Some (files (m w).2 !! k).

(** The head file is empty or names a stored object. *)
Definition head_resolves (w : World) : Prop :=
  ∀ h, files w !! headPath = Some h → h ≠ "" →
       is_Some (files w !! path_join objectsPath h).

(** Every object is stored under the digest of its text. *)
Definition addressed (w : World) : Prop :=
  ∀ h text, files w !! path_join objectsPath h = Some text → hashObject text = h.

(** The index file holds a JSON array. *)
Definition index_is_array (w : World) : Prop :=
  ∃ items, stagingIndex w = Some (JSON.Arr items).

Definition is_hex (c : ascii) : bool :=
  let n := JSON.code c in
  ((48 <=? n) && (n <=? 57) || (97 <=? n) && (n <=? 102))%N.

Inductive Call : Type :=
| CallInit
| CallAdd (fileToBeAdded : string)
| CallCommit (now message : string)
| CallLog (fuel : nat)
| CallShow (commitHash : string).

Section Calls.

Variable diffLines : string → string → list Change.

Definition call (c : Call) : M unit :=
  match c with
  | CallInit => init
  | CallAdd fileToBeAdded => add fileToBeAdded
  | CallCommit now message => commit now message
  | CallLog fuel => log fuel ;; ret tt
  | CallShow commitHash => showCommitDiff diffLines commitHash
  end.

(** Each call runs on the world the previous one left, whether that one
    returned or threw. *)
Fixpoint session (calls : list Call) (w : World) : World :=
  match calls with
  | [] => w
  | c :: rest => session rest (call c w).2
  end.

End Calls.

(** Neither [.coeus] nor [.coeus/objects] is a regular file, and neither
    the head path nor the index path is a directory with files below it.
    Where this holds, [fs.mkdir(objectsPath, {recursive: true})] creates what
    is missing and returns, as [init] takes it to do, and the two exclusive
    writes fail only because their file exists. *)
Definition directories_free (w : World) : Prop :=
  files w !! repoPath = None ∧ files w !! objectsPath = None
  ∧ ∀ k, is_Some (files w !! k) →
         starts_with (headPath +:+ "/") k = false
         ∧ starts_with (indexPath +:+ "/") k = false.

(** Some object is stored, so the objects directory exists and a blob can
    be written into it. *)
Definition objects_directory_exists (w : World) : Prop :=
  ∃ h, segment h = true ∧ is_Some (files w !! path_join objectsPath h).

(** The index file is missing, or holds a JSON value that is not an array. *)
Definition index_unusable (w : World) : Prop :=
  files w !! indexPath = None
  ∨ ∃ v, stagingIndex w = Some v ∧ ∀ items, v ≠ JSON.Arr items.

(** The text cannot begin a JSON value: after white space it is empty or
    opens with a character other than a quote, a bracket, a brace, a minus
    sign, a digit and the first letters of [true], [false] and [null]. *)
Definition not_json_start (text : string) : bool :=
  match JSON.skip_ws text with
  | EmptyString => true
  | String c _ =>
      let n := JSON.code c in
      negb ((n =? 34) || (n =? 91) || (n =? 123) || (n =? 45)
            || ((48 <=? n) && (n <=? 57))
            || (n =? 116) || (n =? 102) || (n =? 110))%N
  end.

(** A sequence of calls on the working tree of the worked scenario. *)
Definition busy : list Call :=
  [CallAdd "a.txt"; CallAdd "missing.txt"; CallCommit Scenario.t1 "first";
   CallLog 5; CallInit; CallShow "abc"; CallAdd "b.txt"].

End Session.

(** ** Bytes on disk and the text read from them

    [fs.readFile] with [encoding: 'utf-8'] decodes the bytes of a file
    (WHATWG UTF-8 decode without BOM handling, as [Buffer.toString] does):
    every maximal ill-formed part becomes U+FFFD.  The [files] of a world are
    the texts so read; [mount] takes the bytes on disk to that view. *)

Module Disk.

(** U+FFFD in UTF-8. *)
Definition replacement : string :=
  String (JSON.char 0xEF) (String (JSON.char 0xBF) (String (JSON.char 0xBD) "")).

(** The decoder's state: the bytes of the sequence under way, the number of
    continuation bytes still needed, and the range allowed for the next. *)
Record State : Type := mkState {
  pending : string;
  needed : nat;
  lower : N;
  upper : N
}.

Definition start : State := mkState "" 0 0x80 0xBF.

(** What a lead byte asks for: continuation count and the range of the
    first continuation byte. *)
Definition lead (n : N) : option (nat * N * N) :=
  if ((0xC2 <=? n) && (n <=? 0xDF))%N then Some (1%nat, 0x80%N, 0xBF%N)
  else if (n =? 0xE0)%N then Some (2%nat, 0xA0%N, 0xBF%N)
  else if (n =? 0xED)%N then Some (2%nat, 0x80%N, 0x9F%N)
  else if ((0xE1 <=? n) && (n <=? 0xEF))%N then Some (2%nat, 0x80%N, 0xBF%N)
  else if (n =? 0xF0)%N then Some (3%nat, 0x90%N, 0xBF%N)
  else if (n =? 0xF4)%N then Some (3%nat, 0x80%N, 0x8F%N)
  else if ((0xF1 <=? n) && (n <=? 0xF3))%N then Some (3%nat, 0x80%N, 0xBF%N)
  else None.

(** A byte met with no sequence under way; [out] is what was just emitted. *)
Definition first_byte (out : string) (c : ascii) : string * State :=
  let n := JSON.code c in
  if (n <? 0x80)%N then (out +:+ String c "", start)
  else match lead n with
       | Some (k, lo, hi) => (out, mkState (String c "") k lo hi)
       | None => (out +:+ replacement, start)
       end.

Definition step (st : State) (c : ascii) : string * State :=
  let n := JSON.code c in
  match needed st with
  | O => first_byte "" c
  | S k =>
      if ((lower st <=? n) && (n <=? upper st))%N then
        match k with
        | O => (pending st +:+ String c "", start)
        | S _ => ("", mkState (pending st +:+ String c "") k 0x80 0xBF)
        end
      else first_byte replacement c
  end.

Fixpoint decode_from (st : State) (bytes : string) : string :=
  match bytes with
  | EmptyString => match needed st with O => "" | S _ => replacement end
  | String c rest => let '(out, st') := step st c in out +:+ decode_from st' rest
  end.

Definition utf8_decode (bytes : string) : string := decode_from start bytes.

(** Well-formed UTF-8: decoding changes nothing. *)
Definition well_formed (bytes : string) : Prop := utf8_decode bytes = bytes.

(** The world of a directory: each file read as text, nothing printed yet. *)
Definition mount (disk : gmap string string) : World :=
  mkWorld (utf8_decode <$> disk) [].

(** A directory with a repository and a file holding the single byte ff,
    and one with a file of accented text. *)
Definition binary : string := String (JSON.char 0xFF) "".
Definition binary_disk : gmap string string :=
  <["bin" := binary]> (files Coeus.fresh).
Definition text_disk : gmap string string :=
  <["note.txt" := "déjà vu"]> (files Coeus.fresh).

End Disk.

(** ** What [show] prints for a commit *)

Module Reconstruction.
Import Coeus Session.

(** A file entry as stored in the index and in a commit. *)
Definition entryValue (e : string * string) : JSON.value :=
  JSON.Obj [("path", JSON.Str e.1); ("hash", JSON.Str e.2)].

(** The text stored under a hash. *)
Definition blob (w : World) (h : string) : string :=
  default "" (files w !! path_join objectsPath h).

(** The hash of the first entry with the given path, as [files.find]
    selects it. *)
Definition parent_entry (filePath : string) (entries : list (string * string))
  : option string :=
  snd <$> List.find (λ e, bool_decide (e.1 = filePath)) entries.

(** What [show] finds behind the [parent] of a commit: nothing to follow,
    or a stored parent commit with its file entries. *)
Inductive Parent : Type :=
| NoParent
| ParentFiles (entries : list (string * string)).

Definition parent_known (w : World) (parent : option string) (view : Parent) : Prop :=
  match view with
  | NoParent => truthy (JSON.Str <$> parent) = false
  | ParentFiles entries =>
      ∃ parentHash pnow pmessage grandparent,
        parent = Some parentHash ∧ parentHash ≠ ""
        ∧ storedObject w parentHash
          = Some (commitRecord pnow pmessage (JSON.Arr (entryValue <$> entries))
                               grandparent)
  end.

(** The blobs [show] reads for an entry are stored. *)
Definition blobs_stored (w : World) (view : Parent) (e : string * string) : Prop :=
  is_Some (files w !! path_join objectsPath e.2)
  ∧ match view with
    | NoParent => True
    | ParentFiles entries =>
        ∀ old, parent_entry e.1 entries = Some old →
               is_Some (files w !! path_join objectsPath old)
    end.

Section Lines.

Variable diffLines : string → string → list Change.

(** The lines of one file of the commit. *)
Definition file_lines (w : World) (view : Parent) (e : string * string)
  : list Event :=
  [Log ("File: " +:+ e.1); Log (blob w e.2)]
  ++ match view with
     | NoParent => [Log "First commit"]
     | ParentFiles entries =>
         match parent_entry e.1 entries with
         | None => [Log "New file in this commit"]
         | Some old =>
             [Log (LF +:+ "Diff:")]
             ++ map rendered (diffLines (blob w old) (blob w e.2)) ++ [Log ""]
         end
     end.

End Lines.

End Reconstruction.

(** * Properties *)

(** ** Strings *)

Lemma string_app_cons (c : ascii) (s t : string) : String c s +:+ t = String c (s +:+ t).
Proof. reflexivity. Qed.

Lemma string_app_nil_l (t : string) : "" +:+ t = t.
Proof. reflexivity. Qed.

Lemma string_app_nil_r (s : string) : s +:+ "" = s.
Proof. induction s as [|c s IH]; [reflexivity|]. by rewrite string_app_cons, IH. Qed.

Lemma string_app_assoc (s t u : string) : (s +:+ t) +:+ u = s +:+ t +:+ u.
Proof. induction s as [|c s IH]; [reflexivity|]. by rewrite !string_app_cons, IH. Qed.

Lemma string_app_length (s t : string) :
  String.length (s +:+ t) = String.length s + String.length t.
Proof. induction s as [|c s IH]; [reflexivity|]. rewrite string_app_cons. simpl. by rewrite IH. Qed.

(** ** JSON: parsing undoes serialisation *)

Module JSONFacts.
Import JSON.

Lemma value_ind (P : value → Prop)
  (HNull : P Null) (HBool : ∀ b, P (Bool b)) (HStr : ∀ s, P (Str s))
  (HArr : ∀ items, Forall P items → P (Arr items))
  (HObj : ∀ members, Forall (λ kx, P kx.2) members → P (Obj members)) :
  ∀ v, P v.
Proof.
  fix IH 1. intros [| b | s | items | members].
  - exact HNull.
  - apply HBool.
  - apply HStr.
  - apply HArr. induction items as [|x items IHitems]; constructor; [apply IH | exact IHitems].
  - apply HObj. induction members as [|[k x] members IHm]; constructor; [apply IH | exact IHm].
Qed.

Lemma parse_chars_escape_char (c : ascii) (t : string) :
  parse_chars (escape_char c +:+ t) = prepend (String c "") (parse_chars t).
Proof. destruct c as [[] [] [] [] [] [] [] []]; reflexivity. Qed.

Lemma parse_chars_escape (s rest : string) :
  parse_chars (escape s +:+ String dquote rest) = Some (s, rest).
Proof.
  induction s as [|c s IH]; [reflexivity|].
  change (escape (String c s)) with (escape_char c +:+ escape s).
  by rewrite string_app_assoc, parse_chars_escape_char, IH.
Qed.

Lemma stringify_head (v : value) :
  ∃ c s, stringify v = String c s ∧ is_ws c = false
         ∧ (code c =? 93)%N = false ∧ (code c =? 125)%N = false
         ∧ (code c =? 44)%N = false.
Proof.
  destruct v as [| [] | s | items | members]; eexists _, _;
    (split; [reflexivity | done]).
Qed.

Lemma skip_ws_stringify (v : value) (rest : string) :
  skip_ws (stringify v +:+ rest) = stringify v +:+ rest.
Proof.
  destruct (stringify_head v) as (c & s & -> & Hws & _).
  rewrite string_app_cons. simpl. by rewrite Hws.
Qed.

Lemma parse_elements_stringify (items : list value) (fuel : nat) (rest : string) :
  Forall (λ v, ∀ fuel rest, size v ≤ fuel →
               parse_value fuel (stringify v +:+ rest) = Some (v, rest)) items →
  items ≠ [] →
  sum_list (map (λ x, S (size x)) items) ≤ fuel →
  parse_elements fuel (join "," (map stringify items) +:+ String "]" rest)
  = Some (items, rest).
Proof.
  intros Hall. revert fuel.
  induction Hall as [|x items Hx Hall IH]; intros fuel Hne Hfuel; [done|].
  destruct fuel as [|fuel]; [simpl in Hfuel; lia|].
  simpl in Hfuel.
  destruct items as [|y items].
  - simpl. rewrite Hx by lia. reflexivity.
  - change (join "," (map stringify (x :: y :: items)))
      with (stringify x +:+ "," +:+ join "," (map stringify (y :: items))).
    rewrite !string_app_assoc. simpl.
    rewrite Hx by lia. simpl.
    rewrite IH; [reflexivity | done | simpl in *; lia].
Qed.

Ltac norm_app :=
  repeat (rewrite string_app_assoc || rewrite string_app_cons || rewrite string_app_nil_l).

Lemma parse_members_stringify (members : list (string * value)) (fuel : nat)
    (rest : string) :
  Forall (λ kx, ∀ fuel rest, size kx.2 ≤ fuel →
                parse_value fuel (stringify kx.2 +:+ rest) = Some (kx.2, rest))
         members →
  members ≠ [] →
  sum_list (map (λ kx, S (size kx.2)) members) ≤ fuel →
  parse_members fuel (join "," (map member_text members) +:+ String "}" rest)
  = Some (members, rest).
Proof.
  intros Hall. revert fuel.
  induction Hall as [|[k x] members Hx Hall IH]; intros fuel Hne Hfuel; [done|].
  destruct fuel as [|fuel]; [simpl in Hfuel; lia|].
  simpl in Hfuel, Hx.
  destruct members as [|y members].
  - change (join "," (map member_text [(k, x)]))
      with (String dquote (escape k +:+ String dquote "") +:+ ":" +:+ stringify x).
    norm_app. simpl. rewrite parse_chars_escape. simpl.
    rewrite Hx by lia. reflexivity.
  - change (join "," (map member_text ((k, x) :: y :: members)))
      with ((String dquote (escape k +:+ String dquote "") +:+ ":" +:+ stringify x)
              +:+ "," +:+ join "," (map member_text (y :: members))).
    norm_app. simpl. rewrite parse_chars_escape. simpl.
    rewrite Hx by lia. simpl.
    rewrite IH; [reflexivity | done | simpl in *; lia].
Qed.

Lemma join_head (texts : list string) :
  texts ≠ [] →
  Forall (λ t, ∃ c s, t = String c s ∧ is_ws c = false
                      ∧ (code c =? 93)%N = false ∧ (code c =? 125)%N = false)
         texts →
  ∃ c s, join "," texts = String c s ∧ is_ws c = false
         ∧ (code c =? 93)%N = false ∧ (code c =? 125)%N = false.
Proof.
  intros Hne Hall. destruct Hall as [|t texts (c & s & -> & Hc) _]; [done|].
  destruct texts as [|u texts]; [by eexists _, _|].
  exists c, (s +:+ "," +:+ join "," (u :: texts)). done.
Qed.

Lemma parse_value_stringify (v : value) :
  ∀ fuel rest, size v ≤ fuel →
    parse_value fuel (stringify v +:+ rest) = Some (v, rest).
Proof.
  induction v as [| b | s | items IH | members IH] using value_ind;
    intros [|fuel] rest Hfuel; try (simpl in Hfuel; lia).
  - reflexivity.
  - by destruct b.
  - change (stringify (Str s)) with (String dquote (escape s +:+ String dquote "")).
    norm_app. simpl. by rewrite parse_chars_escape.
  - change (stringify (Arr items))
      with (String "[" (join "," (map stringify items) +:+ "]")).
    rewrite string_app_cons, string_app_assoc. simpl in Hfuel |- *.
    destruct (decide (items = [])) as [->|Hne]; [reflexivity|].
    destruct (join_head (map stringify items)) as (c & t & Hhead & Hws & Hc & _).
    { by destruct items. }
    { apply Forall_map, Forall_forall. intros x _.
      destruct (stringify_head x) as (c & t & ? & ? & ? & ? & _). by exists c, t. }
    rewrite Hhead, !string_app_cons. simpl. rewrite Hws, Hc.
    rewrite <- !string_app_cons, <- Hhead.
    change ("]" +:+ rest) with (String "]" rest).
    rewrite (parse_elements_stringify items fuel rest IH); [done..|lia].
  - change (stringify (Obj members))
      with (String "{" (join "," (map member_text members) +:+ "}")).
    rewrite string_app_cons, string_app_assoc. simpl in Hfuel |- *.
    destruct (decide (members = [])) as [->|Hne]; [reflexivity|].
    destruct (join_head (map member_text members)) as (c & t & Hhead & Hws & _ & Hc).
    { by destruct members. }
    { apply Forall_map, Forall_forall. intros [k x] _. by eexists _, _. }
    rewrite Hhead, !string_app_cons. simpl. rewrite Hws, Hc.
    rewrite <- !string_app_cons, <- Hhead.
    change ("}" +:+ rest) with (String "}" rest).
    rewrite (parse_members_stringify members fuel rest IH); [done..|lia].
Qed.

Lemma join_length (items : list value) :
  Forall (λ v, size v ≤ String.length (stringify v)) items →
  sum_list (map (λ x, S (size x)) items)
  ≤ S (String.length (join "," (map stringify items))).
Proof.
  induction 1 as [|x items Hx _ IH]; [simpl; lia|].
  destruct items as [|y items]; [simpl; lia|].
  change (join "," (map stringify (x :: y :: items)))
    with (stringify x +:+ "," +:+ join "," (map stringify (y :: items))).
  rewrite !string_app_length. simpl in *. lia.
Qed.

Lemma join_members_length (members : list (string * value)) :
  Forall (λ kx, size kx.2 ≤ String.length (stringify kx.2)) members →
  sum_list (map (λ kx, S (size kx.2)) members)
  ≤ S (String.length (join "," (map member_text members))).
Proof.
  induction 1 as [|[k x] members Hx _ IH]; [simpl; lia|].
  assert (size x ≤ String.length (member_text (k, x))) as Hm.
  { unfold member_text. rewrite !string_app_length. simpl in *. lia. }
  destruct members as [|y members].
  { change (S (size x + 0) ≤ S (String.length (member_text (k, x)))). lia. }
  change (join "," (map member_text ((k, x) :: y :: members)))
    with (member_text (k, x) +:+ "," +:+ join "," (map member_text (y :: members))).
  rewrite !string_app_length. simpl in *. lia.
Qed.

Lemma size_le_length (v : value) : size v ≤ String.length (stringify v).
Proof.
  induction v as [| b | s | items IH | members IH] using value_ind.
  - simpl; lia.
  - destruct b; simpl; lia.
  - simpl; lia.
  - change (stringify (Arr items))
      with ("[" +:+ join "," (map stringify items) +:+ "]").
    rewrite !string_app_length. pose proof (join_length items IH). simpl in *. lia.
  - change (stringify (Obj members))
      with ("{" +:+ join "," (map member_text members) +:+ "}").
    rewrite !string_app_length. pose proof (join_members_length members IH). simpl in *. lia.
Qed.

(** [JSON.parse(JSON.stringify(v))] rebuilds [v]. *)
Lemma parse_stringify (v : value) : parse (stringify v) = Some v.
Proof.
  unfold parse.
  rewrite <- (string_app_nil_r (stringify v)) at 2.
  rewrite parse_value_stringify; [reflexivity|].
  pose proof (size_le_length v). lia.
Qed.

End JSONFacts.

(** ** The object store, the staging index and the head pointer *)

Module CoeusFacts.
Import Coeus.

Lemma object_path_not_index (h : string) : path_join objectsPath h ≠ indexPath.
Proof. intros H. cbv in H. discriminate. Qed.

Lemma object_path_not_head (h : string) : path_join objectsPath h ≠ headPath.
Proof. intros H. cbv in H. discriminate. Qed.

Lemma head_not_index : headPath ≠ indexPath.
Proof. intros H. cbv in H. discriminate. Qed.

Lemma object_path_inj (h h' : string) :
  path_join objectsPath h = path_join objectsPath h' → h = h'.
Proof. intros H. cbv in H. by simplify_eq. Qed.

Lemma is_object_path_object (h : string) :
  is_object_path (path_join objectsPath h) = true.
Proof. reflexivity. Qed.

#[local] Hint Resolve object_path_not_index object_path_not_head head_not_index : core.

Lemma hashObject_nonempty (content : string) : hashObject content ≠ "".
Proof.
  unfold hashObject, SHA1.hexdigest.
  destruct (SHA1.digest content) as [[[[h0 h1] h2] h3] h4]. discriminate.
Qed.

Lemma hashObject_length (content : string) : String.length (hashObject content) = 40.
Proof.
  unfold hashObject, SHA1.hexdigest.
  destruct (SHA1.digest content) as [[[[h0 h1] h2] h3] h4].
  by rewrite !string_app_length.
Qed.

Lemma hex_digit_not_separator (x : N) : SHA1.hex_digit x ≠ "/"%char.
Proof.
  unfold SHA1.hex_digit.
  assert (N.land x 0xF < 16)%N as Hlt.
  { change 0xF%N with (N.ones 4). rewrite N.land_ones. by apply N.mod_lt. }
  destruct (N.land x 0xF) as [|p]; [discriminate|].
  do 4 (try destruct p as [p|p|]); try discriminate; lia.
Qed.

(** A digest is a single path segment, so [path.join] appends it as it is. *)
Lemma hashObject_segment (content : string) : segment (hashObject content) = true.
Proof.
  unfold hashObject, SHA1.hexdigest.
  destruct (SHA1.digest content) as [[[[h0 h1] h2] h3] h4].
  unfold segment, SHA1.hex8.
  repeat (rewrite string_app_cons || rewrite string_app_nil_l).
  cbn [list_ascii_of_string forallb].
  rewrite !bool_decide_eq_false_2 by (done || apply hex_digit_not_separator).
  reflexivity.
Qed.

(** The digests of FIPS 180-4's sample messages. *)
Example hashObject_abc :
  hashObject "abc" = "a9993e364706816aba3e25717850c26c9cd0d89d".
Proof. vm_compute. reflexivity. Qed.

Example hashObject_empty :
  hashObject "" = "da39a3ee5e6b4b0d3255bfef95601890afd80709".
Proof. vm_compute. reflexivity. Qed.

#[global] Arguments hashObject : simpl never.

Lemma JSON_parse_stringify (v : JSON.value) (w : World) :
  JSON_parse (Some (JSON.stringify v)) w = (Returned v, w).
Proof. unfold JSON_parse. simpl. by rewrite JSONFacts.parse_stringify. Qed.

Lemma getCurrentHead_spec (w : World) :
  getCurrentHead w = (Returned (files w !! headPath), w).
Proof.
  unfold getCurrentHead, try_catch, bind, readFile, ret.
  by destruct (files w !! headPath).
Qed.

Lemma stagingIndex_inv (w : World) (index : JSON.value) :
  stagingIndex w = Some index →
  ∃ text, files w !! indexPath = Some text ∧ JSON.parse text = Some index.
Proof.
  unfold stagingIndex. destruct (files w !! indexPath) as [text|]; [|done].
  intros H. by exists text.
Qed.

Lemma stagingIndex_stringify (w : World) (index : JSON.value) :
  files w !! indexPath = Some (JSON.stringify index) → stagingIndex w = Some index.
Proof.
  unfold stagingIndex. intros ->. simpl. apply JSONFacts.parse_stringify.
Qed.

Lemma read_index (w : World) (index : JSON.value) :
  stagingIndex w = Some index →
  (text <- readFile indexPath ;; JSON_parse (Some text)) w = (Returned index, w).
Proof.
  intros (text & Hfile & Hparse)%stagingIndex_inv.
  unfold bind, readFile, JSON_parse. rewrite Hfile. simpl. by rewrite Hparse.
Qed.

Lemma bind_assoc {A B C} (m : M A) (k : A → M B) (k' : B → M C) (w : World) :
  (y <- (x <- m ;; k x) ;; k' y) w = (x <- m ;; y <- k x ;; k' y) w.
Proof. unfold bind. by destruct (m w) as [[a|e] w1]. Qed.

Lemma bind_returned {A B} (m : M A) (k : A → M B) (w w1 : World) (a : A) :
  m w = (Returned a, w1) → (x <- m ;; k x) w = k a w1.
Proof. unfold bind. by intros ->. Qed.

Lemma updateStagingArea_spec (w : World) (items : list JSON.value)
    (filePath fileHash : string) :
  stagingIndex w = Some (JSON.Arr items) →
  updateStagingArea filePath fileHash w
  = (Returned tt,
     mkWorld (<[indexPath :=
                  JSON.stringify (JSON.Arr (items ++ [fileEntry filePath fileHash]))]>
                (files w))
             (console w)).
Proof.
  intros Hindex. unfold updateStagingArea.
  rewrite <- bind_assoc. by rewrite (bind_returned _ _ _ _ _ (read_index _ _ Hindex)).
Qed.

(** Whatever its outcome, [updateStagingArea] touches the index file only. *)
Lemma updateStagingArea_frame (w : World) (filePath fileHash k : string) :
  k ≠ indexPath →
  files (updateStagingArea filePath fileHash w).2 !! k = files w !! k.
Proof.
  intros Hk. unfold updateStagingArea, bind, readFile, JSON_parse, ret, throw.
  destruct (files w !! indexPath) as [text|]; simpl; [|done].
  destruct (JSON.parse text) as [[| | | items |]|]; simpl; try done.
  by rewrite lookup_insert_ne.
Qed.

Lemma add_spec (w : World) (items : list JSON.value) (fileToBeAdded content : string) :
  files w !! fileToBeAdded = Some content →
  stagingIndex w = Some (JSON.Arr items) →
  add fileToBeAdded w
  = (Returned tt,
     mkWorld (<[indexPath :=
                  JSON.stringify
                    (JSON.Arr (items ++ [fileEntry fileToBeAdded (hashObject content)]))]>
                (<[path_join objectsPath (hashObject content) := content]> (files w)))
             (console w ++ [Log ("Added " +:+ fileToBeAdded)])).
Proof.
  intros Hfile Hindex. unfold add, bind at 1, readFile at 1. rewrite Hfile.
  unfold bind at 1, writeFile at 1. unfold bind at 1.
  rewrite (updateStagingArea_spec _ items); [reflexivity|].
  unfold stagingIndex in *. simpl. by rewrite lookup_insert_ne.
Qed.

Lemma commit_spec (w : World) (index : JSON.value) (now message : string) :
  stagingIndex w = Some index →
  let commitData := commitRecord now message index (files w !! headPath) in
  let commitHash := hashObject (JSON.stringify commitData) in
  commit now message w
  = (Returned tt,
     mkWorld (<[indexPath := JSON.stringify (JSON.Arr [])]>
                (<[headPath := commitHash]>
                   (<[path_join objectsPath commitHash := JSON.stringify commitData]>
                      (files w))))
             (console w ++ [Log ("Commit successfully created: " +:+ commitHash)])).
Proof.
  intros Hindex. unfold commit.
  rewrite <- bind_assoc, (bind_returned _ _ _ _ _ (read_index _ _ Hindex)).
  unfold bind at 1. rewrite getCurrentHead_spec. reflexivity.
Qed.

(** C9. [add] of a path that cannot be read throws the read error and leaves
    the world, in particular the staging index and the object store, as it
    was. *)
Theorem add_unreadable (w : World) (fileToBeAdded : string) :
  files w !! fileToBeAdded = None →
  add fileToBeAdded w = (Thrown (ENOENT fileToBeAdded), w).
Proof. intros Hfile. unfold add, bind, readFile. by rewrite Hfile. Qed.

(** Whatever the state of the repository, after [add] has read the text
    [b] the object read back under [hashObject b] is exactly [b]. *)
Lemma content_addressing (w : World) (fileToBeAdded b : string) :
  files w !! fileToBeAdded = Some b →
  let w' := (add fileToBeAdded w).2 in
  files w' !! path_join objectsPath (hashObject b) = Some b
  ∧ getFileContent (Some (JSON.Str (hashObject b))) w' = (Returned b, w').
Proof.
  intros Hfile w'.
  assert (files w' !! path_join objectsPath (hashObject b) = Some b) as Hobj.
  { subst w'. unfold add, bind at 1, readFile at 1. rewrite Hfile.
    unfold bind at 1, writeFile at 1. unfold bind at 1.
    match goal with
    | |- context [updateStagingArea ?p ?h ?w0] =>
        pose proof (updateStagingArea_frame w0 p h
                      (path_join objectsPath (hashObject b))
                      (object_path_not_index _)) as Hframe;
        destruct (updateStagingArea p h w0) as [[[]|e] w1]
    end; simpl in *; rewrite Hframe; apply lookup_insert_eq. }
  split; [exact Hobj|].
  unfold getFileContent, bind, objectPath, ret, readFile. by rewrite Hobj.
Qed.

(** C10. With nothing staged, [commit] returns normally: it stores a commit
    record whose [files] is the empty array and rewrites head to its hash. *)
Theorem commit_empty_index (w : World) (now message : string) :
  stagingIndex w = Some (JSON.Arr []) →
  let commitData := commitRecord now message (JSON.Arr []) (files w !! headPath) in
  let commitHash := hashObject (JSON.stringify commitData) in
  ∃ w', commit now message w = (Returned tt, w')
        ∧ storedObject w' commitHash = Some commitData
        ∧ prop (Some commitData) "files" w' = (Returned (Some (JSON.Arr [])), w')
        ∧ files w' !! headPath = Some commitHash.
Proof.
  intros Hindex commitData commitHash.
  eexists. split; [apply (commit_spec w _ now message Hindex)|].
  fold commitData commitHash. unfold storedObject. cbn [files].
  rewrite lookup_insert_ne, lookup_insert_ne, lookup_insert_eq by (by auto).
  rewrite lookup_insert_ne, lookup_insert_eq by (by auto).
  split; [apply JSONFacts.parse_stringify|]. done.
Qed.



(** The record that [add(f1); add(f2); commit(m)] stores. *)
Lemma staging_round_trip_record (w : World) (staged : list JSON.value)
    (f1 f2 b1 b2 now message : string) :
  stagingIndex w = Some (JSON.Arr staged) →
  files w !! f1 = Some b1 →
  files (add f1 w).2 !! f2 = Some b2 →
  let entries :=
    staged ++ [fileEntry f1 (hashObject b1); fileEntry f2 (hashObject b2)] in
  let commitData :=
    commitRecord now message (JSON.Arr entries) (files w !! headPath) in
  let commitHash := hashObject (JSON.stringify commitData) in
  ∃ w', (add f1 ;; add f2 ;; commit now message) w = (Returned tt, w')
        ∧ stagingIndex w' = Some (JSON.Arr [])
        ∧ files w' !! headPath = Some commitHash
        ∧ storedObject w' commitHash = Some commitData
        ∧ prop (Some commitData) "files" w' = (Returned (Some (JSON.Arr entries)), w').
Proof.
  intros Hindex Hf1 Hf2 entries commitData commitHash.
  pose proof (add_spec w staged f1 b1 Hf1 Hindex) as Hadd1.
  rewrite Hadd1 in Hf2. cbn [snd] in Hf2.
  set (w1 := mkWorld _ _) in Hf2, Hadd1.
  assert (stagingIndex w1 = Some (JSON.Arr (staged ++ [fileEntry f1 (hashObject b1)])))
    as Hindex1.
  { apply stagingIndex_stringify. apply lookup_insert_eq. }
  pose proof (add_spec w1 _ f2 b2 Hf2 Hindex1) as Hadd2.
  set (w2 := mkWorld _ _) in Hadd2.
  assert (stagingIndex w2 = Some (JSON.Arr entries)) as Hindex2.
  { apply stagingIndex_stringify. subst w2 entries. cbn [files].
    rewrite lookup_insert_eq. by rewrite <- app_assoc. }
  assert (files w2 !! headPath = files w !! headPath) as Hhead.
  { subst w2 w1. cbn [files]. by rewrite !lookup_insert_ne by auto. }
  pose proof (commit_spec w2 _ now message Hindex2) as Hcommit.
  rewrite Hhead in Hcommit. fold commitData commitHash in Hcommit.
  eexists. split.
  { rewrite (bind_returned _ _ _ _ _ Hadd1).
    rewrite (bind_returned _ _ _ _ _ Hadd2). exact Hcommit. }
  unfold storedObject. cbn [files].
  split; [apply stagingIndex_stringify; apply lookup_insert_eq|].
  rewrite lookup_insert_ne, lookup_insert_eq by auto.
  rewrite lookup_insert_ne, lookup_insert_ne, lookup_insert_eq by auto.
  split; [done|]. split; [apply JSONFacts.parse_stringify|done].
Qed.


(** C4 (as amended). [getCurrentHead] never throws and changes nothing: it
    returns [null] when the head file is absent and the text of the head file
    otherwise, which is the stored commit hash after a commit and the empty
    string, not [null], while the head file is empty. *)
Theorem current_head (w : World) :
  getCurrentHead w = (Returned (files w !! headPath), w).
Proof. apply getCurrentHead_spec. Qed.

(** ** History reconstruction *)

Lemma storedObject_inv (w : World) (h : string) (v : JSON.value) :
  storedObject w h = Some v →
  ∃ text, files w !! path_join objectsPath h = Some text ∧ JSON.parse text = Some v.
Proof.
  unfold storedObject. destruct (files w !! path_join objectsPath h) as [text|]; [|done].
  intros H. by exists text.
Qed.

Lemma getCommitData_stored (w : World) (h text : string) :
  files w !! path_join objectsPath h = Some text →
  getCommitData (Some (JSON.Str h)) w = (Returned (Some text), w).
Proof.
  intros Hobj. unfold getCommitData, bind, objectPath, ret, try_catch, readFile.
  by rewrite Hobj.
Qed.

Lemma getCommitData_missing (w : World) (h : string) :
  files w !! path_join objectsPath h = None →
  getCommitData (Some (JSON.Str h)) w
  = (Returned None,
     mkWorld (files w)
             (console w ++ [LogError "Failed to read the commit data"
                                     (ENOENT (path_join objectsPath h))])).
Proof.
  intros Hobj. unfold getCommitData, bind, objectPath, ret, try_catch, readFile.
  by rewrite Hobj.
Qed.

Lemma getFileContent_stored (w : World) (h text : string) :
  files w !! path_join objectsPath h = Some text →
  getFileContent (Some (JSON.Str h)) w = (Returned text, w).
Proof.
  intros Hobj. unfold getFileContent, bind, objectPath, ret, readFile.
  by rewrite Hobj.
Qed.

Lemma find_path_absent (filePath : string) (entries : list JSON.value) (w : World) :
  Forall (λ e, ∃ p h, e = fileEntry p h ∧ p ≠ filePath) entries →
  find_path (Some (JSON.Str filePath)) entries w = (Returned None, w).
Proof.
  induction 1 as [|e entries (p & h & -> & Hp) _ IH]; [reflexivity|].
  cbn [find_path]. unfold bind at 1. cbn [prop fileEntry ret member].
  rewrite decide_False by done. rewrite decide_True by done.
  cbn [strict_eq]. rewrite bool_decide_eq_false_2; [exact IH|].
  by intros [= ->].
Qed.

Lemma JSON_parse_text (text : string) (v : JSON.value) (w : World) :
  JSON.parse text = Some v → JSON_parse (Some text) w = (Returned v, w).
Proof. intros H. unfold JSON_parse. simpl. by rewrite H. Qed.

Lemma JSON_parse_null (w : World) : JSON_parse None w = (Returned JSON.Null, w).
Proof. reflexivity. Qed.

Lemma getParentFileContent_absent (w : World) (pnow pmessage filePath : string)
    (parentFiles : list JSON.value) (grandparent : option string) :
  Forall (λ e, ∃ p h, e = fileEntry p h ∧ p ≠ filePath) parentFiles →
  getParentFileContent
    (commitRecord pnow pmessage (JSON.Arr parentFiles) grandparent)
    (Some (JSON.Str filePath)) w
  = (Returned None, w).
Proof.
  intros Habsent. unfold getParentFileContent.
  erewrite bind_returned; [|reflexivity]. cbn [member commitRecord].
  rewrite decide_False, decide_True by done.
  by rewrite (bind_returned _ _ _ _ _ (find_path_absent _ _ _ Habsent)).
Qed.

Lemma world_eta (w : World) : mkWorld (files w) (console w) = w.
Proof. by destruct w. Qed.

(** C5. [show] of a hash (a single path segment) with no object in the
    store: the failed read is reported, "Commit not found" is printed,
    nothing is printed per file, the call returns normally and no file is
    changed. *)
Theorem show_missing_commit (diffLines : string → string → list Change)
    (w : World) (commitHash : string) :
  segment commitHash = true →
  files w !! path_join objectsPath commitHash = None →
  showCommitDiff diffLines commitHash w
  = (Returned tt,
     mkWorld (files w)
             (console w ++ [LogError "Failed to read the commit data"
                                     (ENOENT (path_join objectsPath commitHash));
                            Log "Commit not found"])).
Proof.
  intros _ Hobj. unfold showCommitDiff.
  rewrite (bind_returned _ _ _ _ _ (getCommitData_missing w commitHash Hobj)).
  rewrite (bind_returned _ _ _ _ _ (JSON_parse_null _)).
  cbn [truthy negb]. unfold console_log, emit. cbn [files console].
  by rewrite <- app_assoc.
Qed.

Lemma showFile_read (diffLines : string → string → list Change) (w : World)
    (commitData : JSON.value) (filePath fileHash content : string) :
  files w !! path_join objectsPath fileHash = Some content →
  showFile diffLines commitData (fileEntry filePath fileHash) w
  = (parent <- prop (Some commitData) "parent" ;;
     if truthy parent then
       parentText <- getCommitData parent ;;
       parentCommitData <- JSON_parse parentText ;;
       parentFileContent <-
         getParentFileContent parentCommitData (Some (JSON.Str filePath)) ;;
       match parentFileContent with
       | Some old =>
           console_log (LF +:+ "Diff:") ;;
           for_each writePart (diffLines old content) ;;
           console_log ""
       | None => console_log "New file in this commit"
       end
     else console_log "First commit")
      (mkWorld (files w) (console w ++ [Log ("File: " +:+ filePath); Log content])).
Proof.
  intros Hblob.
  assert (∀ c, files (mkWorld (files w) c) !! path_join objectsPath fileHash
               = Some content) as Hblob' by done.
  unfold showFile. unfold bind at 1. cbn [prop fileEntry ret member].
  rewrite decide_False, decide_True by done.
  unfold bind at 1, console_log at 1, emit at 1.
  unfold bind at 1. cbn [prop fileEntry ret member].
  rewrite decide_True by done.
  rewrite (bind_returned _ _ _ _ _ (getFileContent_stored _ _ _ (Hblob' _))).
  unfold bind at 1, console_log at 1, emit at 1. cbn [files console template to_string].
  by rewrite <- !app_assoc.
Qed.

Lemma showFile_first_commit (diffLines : string → string → list Change)
    (w : World) (now message : string) (commitFiles : JSON.value)
    (root : option string) (filePath fileHash content : string) :
  files w !! path_join objectsPath fileHash = Some content →
  truthy (JSON.Str <$> root) = false →
  showFile diffLines (commitRecord now message commitFiles root)
           (fileEntry filePath fileHash) w
  = (Returned tt,
     mkWorld (files w)
             (console w ++ [Log ("File: " +:+ filePath); Log content;
                            Log "First commit"])).
Proof.
  intros Hblob Hroot. rewrite (showFile_read _ _ _ _ _ _ Hblob).
  erewrite bind_returned; [|reflexivity]. cbn [commitRecord member].
  rewrite decide_True by done.
  destruct root as [[|c r]|]; try done; cbn [truthy];
    unfold console_log, emit; cbn [files console]; by rewrite <- !app_assoc.
Qed.

Lemma showFile_new_file (diffLines : string → string → list Change)
    (w : World) (now message : string) (commitFiles : JSON.value)
    (parentHash pnow pmessage : string) (parentFiles : list JSON.value)
    (grandparent : option string) (filePath fileHash content : string) :
  files w !! path_join objectsPath fileHash = Some content →
  parentHash ≠ "" →
  storedObject w parentHash
  = Some (commitRecord pnow pmessage (JSON.Arr parentFiles) grandparent) →
  Forall (λ e, ∃ p h, e = fileEntry p h ∧ p ≠ filePath) parentFiles →
  showFile diffLines (commitRecord now message commitFiles (Some parentHash))
           (fileEntry filePath fileHash) w
  = (Returned tt,
     mkWorld (files w)
             (console w ++ [Log ("File: " +:+ filePath); Log content;
                            Log "New file in this commit"])).
Proof.
  intros Hblob Hph (ptext & Hpobj & Hpparse)%storedObject_inv Habsent.
  assert (∀ c, files (mkWorld (files w) c) !! path_join objectsPath parentHash
               = Some ptext) as Hpobj' by done.
  rewrite (showFile_read _ _ _ _ _ _ Hblob).
  erewrite bind_returned; [|reflexivity]. cbn [commitRecord member].
  rewrite decide_True by done.
  destruct parentHash as [|c r]; [done|]. cbn [truthy].
  rewrite (bind_returned _ _ _ _ _ (getCommitData_stored _ _ ptext (Hpobj' _))).
  rewrite (bind_returned _ _ _ _ _ (JSON_parse_text _ _ _ Hpparse)).
  rewrite (bind_returned _ _ _ _ _
             (getParentFileContent_absent _ _ _ _ _ _ Habsent)).
  unfold console_log, emit; cbn [files console].
  by rewrite <- !app_assoc.
Qed.

(** [show] of a commit without a parent: after the heading, every file of
    the commit gets its path, its content and the "First commit" marker. *)
Lemma for_each_showFile_root (diffLines : string → string → list Change)
    (now message : string) (commitFiles : JSON.value) (root : option string)
    (entries : list (string * string * string)) :
  truthy (JSON.Str <$> root) = false →
  ∀ w, Forall (λ e, files w !! path_join objectsPath e.1.2 = Some e.2) entries →
    for_each (showFile diffLines (commitRecord now message commitFiles root))
             (map (λ e, fileEntry e.1.1 e.1.2) entries) w
    = (Returned tt,
       mkWorld (files w)
               (console w
                  ++ concat (map (λ e, [Log ("File: " +:+ e.1.1); Log e.2;
                                        Log "First commit"]) entries))).
Proof.
  intros Hroot. induction entries as [|[[p h] c] entries IH]; intros w Hblobs.
  - cbn. by rewrite app_nil_r, world_eta.
  - apply Forall_cons in Hblobs as [Hblob Hblobs]. cbn [fst snd] in Hblob.
    cbn [map for_each fst snd].
    rewrite (bind_returned _ _ _ _ _
               (showFile_first_commit _ _ _ _ _ _ _ _ _ Hblob Hroot)).
    rewrite IH by done. cbn [files console concat map fst snd].
    by rewrite <- !app_assoc.
Qed.

Lemma show_root_commit (diffLines : string → string → list Change)
    (w : World) (commitHash now message : string) (root : option string)
    (entries : list (string * string * string)) :
  storedObject w commitHash
  = Some (commitRecord now message
            (JSON.Arr (map (λ e, fileEntry e.1.1 e.1.2) entries)) root) →
  truthy (JSON.Str <$> root) = false →
  Forall (λ e, files w !! path_join objectsPath e.1.2 = Some e.2) entries →
  showCommitDiff diffLines commitHash w
  = (Returned tt,
     mkWorld (files w)
             (console w
                ++ Log "Changes in the last commit are: "
                :: concat (map (λ e, [Log ("File: " +:+ e.1.1); Log e.2;
                                      Log "First commit"]) entries))).
Proof.
  intros (text & Hobj & Hparse)%storedObject_inv Hroot Hblobs.
  unfold showCommitDiff.
  rewrite (bind_returned _ _ _ _ _ (getCommitData_stored _ _ _ Hobj)).
  rewrite (bind_returned _ _ _ _ _ (JSON_parse_text _ _ _ Hparse)).
  cbn [truthy commitRecord negb].
  unfold bind at 1, console_log at 1, emit at 1.
  erewrite bind_returned; [|reflexivity]. cbn [member].
  rewrite decide_False, decide_True by done.
  erewrite bind_returned; [|reflexivity].
  pose proof (for_each_showFile_root diffLines now message
                (JSON.Arr (map (λ e, fileEntry e.1.1 e.1.2) entries)) root entries
                Hroot (mkWorld (files w)
                         (console w ++ [Log "Changes in the last commit are: "]))
                Hblobs) as Hloop.
  cbn [commitRecord] in Hloop. rewrite Hloop. cbn [files console].
  by rewrite <- app_assoc.
Qed.

End CoeusFacts.

(** ** The diff engine *)

Module DiffFacts.
Import Diff.

Lemma split_lines_concat (s : string) : concat_lines (split_lines s) = s.
Proof.
  induction s as [|c s IH]; [reflexivity|].
  cbn [split_lines]. case_bool_decide.
  - cbn [concat_lines]. by rewrite IH.
  - destruct (split_lines s) as [|l ls]; cbn [concat_lines] in *.
    + by rewrite <- IH.
    + by rewrite string_app_cons, IH.
Qed.

Lemma split_lines_nonempty (c : ascii) (s : string) : split_lines (String c s) ≠ [].
Proof.
  cbn [split_lines]. case_bool_decide; [done|]. by destruct (split_lines s).
Qed.

Lemma edit_script_same (ls : list string) :
  edit_script ls ls = map (pair Unchanged) ls.
Proof.
  induction ls as [|l ls IH]; [reflexivity|].
  cbn [edit_script map]. rewrite bool_decide_eq_true_2 by done. by rewrite IH.
Qed.

Lemma coalesce_unchanged (l : string) (ls : list string) :
  coalesce (map (pair Unchanged) (l :: ls))
  = [mkSegment Unchanged (concat_lines (l :: ls))].
Proof.
  revert l. induction ls as [|l' ls IH]; intros l.
  - cbn. by rewrite string_app_nil_r.
  - change (coalesce (map (pair Unchanged) (l :: l' :: ls)))
      with (match coalesce (map (pair Unchanged) (l' :: ls)) with
            | seg :: segs =>
                if bool_decide (kind seg = Unchanged)
                then mkSegment Unchanged (l +:+ text seg) :: segs
                else mkSegment Unchanged l :: seg :: segs
            | [] => [mkSegment Unchanged l]
            end).
    by rewrite IH.
Qed.

(** C8. The diff of a non-empty text against itself is one segment, of kind
    Unchanged, whose text is the whole text. *)
Theorem diffLines_same (x : string) :
  x ≠ "" → diffLines x x = [mkSegment Unchanged x].
Proof.
  intros Hx. unfold diffLines. rewrite edit_script_same.
  destruct x as [|c x]; [done|].
  pose proof (split_lines_nonempty c x) as Hne.
  pose proof (split_lines_concat (String c x)) as Hcat.
  destruct (split_lines (String c x)) as [|l ls]; [done|].
  by rewrite coalesce_unchanged, Hcat.
Qed.

End DiffFacts.

(** ** The commit chain *)

Module ChainFacts.
Import Coeus CoeusFacts.

Lemma walkable_ext (fs fs' : gmap string string) (v : JsValue)
    (l : list (string * JSON.value)) :
  (∀ h, h ∈ l.*1 → fs' !! path_join objectsPath h = fs !! path_join objectsPath h) →
  walkable fs v l → walkable fs' v l.
Proof.
  intros Hagree Hwalk. induction Hwalk as [v Hv|h members rest Hh Hobj Hwalk IH].
  - by constructor.
  - constructor; [done| |].
    + rewrite Hagree; [done|]. apply elem_of_cons. by left.
    + apply IH. intros k Hk. apply Hagree. apply elem_of_cons. by right.
Qed.

Lemma walkable_stored (fs : gmap string string) (v : JsValue)
    (l : list (string * JSON.value)) :
  walkable fs v l →
  Forall (λ c, fs !! path_join objectsPath c.1 = Some (JSON.stringify c.2)) l.
Proof. induction 1; constructor; done. Qed.

Lemma log_loop_walk (w : World) (v : JsValue) (l : list (string * JSON.value)) :
  walkable (files w) v l →
  ∀ fuel c, length l ≤ fuel →
    log_loop fuel v (mkWorld (files w) c)
    = (Returned Finished, mkWorld (files w) (c ++ concat (map log_lines l))).
Proof.
  induction 1 as [v Hv|h members rest Hh Hobj Hwalk IH]; intros fuel c Hfuel.
  - destruct fuel; cbn [log_loop]; rewrite Hv; cbn; by rewrite app_nil_r.
  - destruct fuel as [|fuel]; [simpl in Hfuel; lia|].
    cbn [log_loop]. destruct h as [|a h]; [done|]. cbn [truthy].
    erewrite bind_returned; [|reflexivity].
    erewrite bind_returned; [|unfold readFile; cbn [files]; by rewrite Hobj].
    rewrite (bind_returned _ _ _ _ _ (JSON_parse_stringify _ _)).
    erewrite bind_returned; [|reflexivity].
    erewrite bind_returned; [|reflexivity].
    erewrite bind_returned; [|reflexivity].
    erewrite bind_returned; [|reflexivity].
    erewrite bind_returned; [|reflexivity].
    cbn [files console]. rewrite IH by (simpl in Hfuel; lia).
    cbn [map concat log_lines snd fst template to_string].
    by rewrite <- !app_assoc.
Qed.

Lemma history_app (acc : list (string * JSON.value)) (hd : string)
    (calls : list (string * string)) :
  history acc hd calls = history [] hd calls ++ acc.
Proof.
  revert acc hd. induction calls as [|call rest IH]; intros acc hd; [done|].
  cbn [history]. rewrite IH, (IH [_]). by rewrite <- app_assoc.
Qed.

Lemma history_length (hd : string) (calls : list (string * string)) :
  length (history [] hd calls) = length calls.
Proof.
  revert hd. induction calls as [|call rest IH]; intros hd; [done|].
  cbn [history]. rewrite history_app, length_app, IH. simpl. lia.
Qed.

Lemma history_last (hd : string) (call : string * string)
    (rest : list (string * string)) :
  ∃ h, last (history [] hd (call :: rest))
       = Some (h, commitRecord call.1 call.2 (JSON.Arr []) (Some hd)).
Proof. cbn [history]. rewrite history_app. eexists. apply last_snoc. Qed.

Lemma commits_walkable (calls : list (string * string)) :
  ∀ (w : World) (acc : list (string * JSON.value)) (hd : string),
    files w !! headPath = Some hd →
    stagingIndex w = Some (JSON.Arr []) →
    walkable (files w) (Some (JSON.Str hd)) acc →
    NoDup (history acc hd calls).*1 →
    ∃ w' hd',
      commits calls w = (Returned tt, w')
      ∧ files w' !! headPath = Some hd'
      ∧ walkable (files w') (Some (JSON.Str hd')) (history acc hd calls)
      ∧ console w' = console w ++ map created (reverse (history [] hd calls)).
Proof.
  induction calls as [|[now message] rest IH]; intros w acc hd Hhead Hindex Hwalk Hnodup.
  - exists w, hd. cbn. by rewrite app_nil_r.
  - cbn [history fst snd] in *.
    set (commitData := commitRecord now message (JSON.Arr []) (Some hd)) in *.
    set (commitHash := hashObject (JSON.stringify commitData)) in *.
    pose proof (commit_spec w _ now message Hindex) as Hcommit.
    cbn zeta in Hcommit. rewrite Hhead in Hcommit.
    fold commitData commitHash in Hcommit.
    set (w1 := mkWorld _ _) in Hcommit.
    assert (commitHash ∉ acc.*1) as Hfresh.
    { rewrite history_app, fmap_app in Hnodup.
      apply NoDup_app in Hnodup as (_ & _ & Hnodup).
      rewrite fmap_cons in Hnodup. by apply NoDup_cons in Hnodup as [? _]. }
    destruct (IH w1 ((commitHash, commitData) :: acc) commitHash)
      as (w' & hd' & Hrun & Hhead' & Hwalk' & Hconsole).
    { subst w1. cbn [files]. by rewrite lookup_insert_ne, lookup_insert_eq by auto. }
    { apply stagingIndex_stringify. apply lookup_insert_eq. }
    { constructor.
      - apply hashObject_nonempty.
      - subst w1. cbn [files].
        by rewrite lookup_insert_ne, lookup_insert_ne, lookup_insert_eq by auto.
      - cbn [member]. rewrite decide_True by done.
        apply (walkable_ext (files w)); [|done].
        intros k Hk. subst w1. cbn [files].
        rewrite lookup_insert_ne, lookup_insert_ne, lookup_insert_ne; auto.
        intros ->%object_path_inj. done. }
    { done. }
    exists w', hd'. split; [|split; [done|split; [done|]]].
    + unfold commits. cbn [for_each fst snd].
      rewrite (bind_returned _ _ _ _ _ Hcommit). exact Hrun.
    + rewrite Hconsole. subst w1. cbn [console].
      rewrite (history_app [_]), reverse_app, <- app_assoc. done.
Qed.

Lemma fresh_head : files fresh !! headPath = Some "".
Proof. reflexivity. Qed.

Lemma fresh_index : stagingIndex fresh = Some (JSON.Arr []).
Proof. reflexivity. Qed.

(** C3 (as amended). Repeated [commit] calls on a freshly initialised
    repository, whose commit records have pairwise distinct digests: every
    call returns normally; [log], given enough iterations, finishes, and what
    it prints is the separator and the entry of each created commit, once
    each, newest first; every created commit is stored under its digest; and
    the commit the walk ends at, the first one created, has the empty string
    as its stored [parent], the text of the head file it was created on, which
    is falsy and stops the walk. *)
Theorem chain_integrity (calls : list (string * string)) :
  let made := history [] "" calls in
  NoDup made.*1 →
  ∃ w,
    commits calls fresh = (Returned tt, w)
    ∧ length made = length calls
    ∧ console w = map created (reverse made)
    ∧ (∀ fuel, length calls ≤ fuel →
         log fuel w
         = (Returned Finished,
            mkWorld (files w) (console w ++ concat (map log_lines made))))
    ∧ Forall (λ c, storedObject w c.1 = Some c.2) made
    ∧ (∀ c, last made = Some c →
            prop (Some c.2) "parent" w = (Returned (Some (JSON.Str "")), w)).
Proof.
  intros made Hnodup.
  destruct (commits_walkable calls fresh [] "" fresh_head fresh_index)
    as (w & hd & Hrun & Hhead & Hwalk & Hconsole); [by constructor|done|].
  fold made in Hwalk, Hconsole.
  exists w. split; [done|]. split; [apply history_length|]. split; [done|].
  split; [|split].
  - intros fuel Hfuel. unfold log.
    rewrite (bind_returned _ _ _ _ _ (getCurrentHead_spec w)), Hhead.
    cbn [fmap option_fmap option_map].
    rewrite <- (world_eta w) at 1.
    apply log_loop_walk; [done|]. subst made. by rewrite history_length.
  - apply walkable_stored in Hwalk.
    eapply Forall_impl; [exact Hwalk|]. intros [h r] Hobj.
    unfold storedObject. cbn [fst snd] in *. rewrite Hobj. cbn.
    apply JSONFacts.parse_stringify.
  - intros c Hlast. subst made. destruct calls as [|call rest]; [done|].
    destruct (history_last "" call rest) as (h & Hh).
    rewrite Hh in Hlast. by simplify_eq.
Qed.

End ChainFacts.

(** ** The properties on the worked scenario *)

Module ScenarioFacts.
Import Coeus CoeusFacts ChainFacts Scenario.

Lemma chain_integrity_witness :
  NoDup (history [] "" [(t1, "first"); (t2, "second")]).*1
  ∧ ∃ w, commits [(t1, "first"); (t2, "second")] fresh = (Returned tt, w)
         ∧ (log 2 w).1 = Returned Finished.
Proof.
  assert (NoDup (history [] "" [(t1, "first"); (t2, "second")]).*1) as Hnodup.
  { apply (bool_decide_unpack _). vm_compute. exact I. }
  split; [exact Hnodup|].
  destruct (chain_integrity [(t1, "first"); (t2, "second")] Hnodup)
    as (w & Hrun & _ & _ & Hlog & _).
  exists w. split; [exact Hrun|].
  rewrite (Hlog 2 (le_n 2)). reflexivity.
Defined.

Lemma show_missing_commit_witness :
  segment "abc" = true
  ∧ files fresh !! path_join objectsPath "abc" = None
  ∧ showCommitDiff (λ _ _, []) "abc" fresh
    = (Returned tt,
       mkWorld (files fresh)
               [LogError "Failed to read the commit data"
                         (ENOENT (path_join objectsPath "abc"));
                Log "Commit not found"]).
Proof.
  split; [reflexivity|]. split; [reflexivity|].
  apply (show_missing_commit (λ _ _, []) fresh "abc"); reflexivity.
Defined.


Lemma add_unreadable_witness :
  files tree !! "missing.txt" = None
  ∧ add "missing.txt" tree = (Thrown (ENOENT "missing.txt"), tree).
Proof.
  split; [reflexivity|]. apply (add_unreadable tree "missing.txt"). reflexivity.
Defined.

Lemma commit_empty_index_witness :
  stagingIndex fresh = Some (JSON.Arr [])
  ∧ ∃ w', commit t1 "empty" fresh = (Returned tt, w')
          ∧ storedObject w' (hashObject (JSON.stringify
                                           (commitRecord t1 "empty" (JSON.Arr []) (Some ""))))
            = Some (commitRecord t1 "empty" (JSON.Arr []) (Some "")).
Proof.
  split; [reflexivity|].
  destruct (commit_empty_index fresh t1 "empty" eq_refl) as (w' & Hrun & Hobj & _).
  exists w'. split; [exact Hrun|exact Hobj].
Defined.

Lemma diffLines_same_witness :
  "abc" ≠ "" ∧ Diff.diffLines "abc" "abc" = [Diff.mkSegment Diff.Unchanged "abc"].
Proof.
  assert ("abc" ≠ "") as H by discriminate.
  split; [exact H|]. apply (DiffFacts.diffLines_same "abc" H).
Defined.

(** C4, as stated, fails on a freshly initialised repository: the head file
    is empty and [getCurrentHead] returns the empty string, not [null]. *)
Lemma empty_head_is_not_null :
  files fresh !! headPath = Some ""
  ∧ getCurrentHead fresh = (Returned (Some ""), fresh)
  ∧ (getCurrentHead fresh).1 ≠ Returned None.
Proof. split; [reflexivity|]. split; [reflexivity|]. discriminate. Qed.

(** C3, as stated, fails after a single commit on a freshly initialised
    repository: the walk from head ends at that commit, whose stored [parent]
    is the empty string, not [null]. *)
Lemma root_parent_is_not_null :
  let r := commitRecord t1 "first" (JSON.Arr []) (Some "") in
  let h := hashObject (JSON.stringify r) in
  let w := (commits [(t1, "first")] fresh).2 in
  commits [(t1, "first")] fresh = (Returned tt, w)
  ∧ files w !! headPath = Some h
  ∧ storedObject w h = Some r
  ∧ (log 1 w).1 = Returned Finished
  ∧ (prop (Some r) "parent" w).1 = Returned (Some (JSON.Str ""))
  ∧ (prop (Some r) "parent" w).1 ≠ Returned (Some JSON.Null).
Proof.
  intros r h w.
  split; [vm_compute; reflexivity|].
  split; [vm_compute; reflexivity|].
  split; [vm_compute; reflexivity|].
  split; [vm_compute; reflexivity|].
  split; [reflexivity|]. intros [=].
Qed.

End ScenarioFacts.

(** ** Bootstrap, staging and commit: edge and error behaviour *)

Module StoreFacts.
Import Coeus CoeusFacts Session Scenario.

Lemma init_cases (w : World) :
  init w
  = match files w !! headPath, files w !! indexPath with
    | Some _, _ =>
        (Returned tt,
         mkWorld (files w)
                 (console w ++ [Log "Already initialised the .coeus folder"]))
    | None, Some _ =>
        (Returned tt,
         mkWorld (<[headPath := ""]> (files w))
                 (console w ++ [Log "Already initialised the .coeus folder"]))
    | None, None =>
        (Returned tt,
         mkWorld (<[indexPath := JSON.stringify (JSON.Arr [])]>
                    (<[headPath := ""]> (files w)))
                 (console w))
    end.
Proof.
  unfold init, try_catch, bind, writeFile_wx, writeFile, console_log, emit.
  destruct (files w !! headPath) as [hd|] eqn:Hhead; [done|].
  cbn [files console]. rewrite lookup_insert_ne by auto.
  by destruct (files w !! indexPath).
Qed.

(** [init] in a directory where [.coeus] and [.coeus/objects] are no
    regular files, the head and index paths are no directories, and that has
    neither a head file nor an index file creates
    an empty head file and an index file holding the empty array, prints
    nothing and touches nothing else. *)
Theorem init_creates (w : World) :
  directories_free w →
  files w !! headPath = None →
  files w !! indexPath = None →
  ∃ w', init w = (Returned tt, w')
        ∧ getCurrentHead w' = (Returned (Some ""), w')
        ∧ stagingIndex w' = Some (JSON.Arr [])
        ∧ console w' = console w
        ∧ ∀ k, k ≠ headPath → k ≠ indexPath → files w' !! k = files w !! k.
Proof.
  intros _ Hhead Hindex. eexists. split.
  { rewrite init_cases, Hhead, Hindex. reflexivity. }
  split; [|split; [|split; [done|]]].
  - rewrite getCurrentHead_spec. cbn [files].
    by rewrite lookup_insert_ne, lookup_insert_eq by auto.
  - apply stagingIndex_stringify. apply lookup_insert_eq.
  - intros k Hk1 Hk2. cbn [files]. by rewrite !lookup_insert_ne by auto.
Qed.


(** Where [.coeus] and [.coeus/objects] are no regular files and the head
    and index paths are no directories, [init] does not throw and changes no file that exists; running it again changes
    no file at all. *)
Theorem init_idempotent (w : World) :
  directories_free w →
  (init w).1 = Returned tt
  ∧ (∀ k text, files w !! k = Some text → files (init w).2 !! k = Some text)
  ∧ files (init (init w).2).2 = files (init w).2.
Proof.
  intros _. rewrite (init_cases (init w).2), (init_cases w).
  destruct (files w !! headPath) as [hd|] eqn:Hhead.
  - cbn [fst snd files]. rewrite Hhead. by repeat split.
  - destruct (files w !! indexPath) as [ix|] eqn:Hindex; cbn [fst snd files];
      rewrite ?lookup_insert_eq, ?lookup_insert_ne, ?lookup_insert_eq by auto;
      (split; [done|split; [|done]]); intros k text Hk.
    + rewrite lookup_insert_ne; [done|]. by intros <-; simplify_eq.
    + rewrite !lookup_insert_ne; [done| |]; by intros <-; simplify_eq.
Qed.

Lemma read_index_fails (w : World) :
  (∀ v, stagingIndex w ≠ Some v) →
  ∃ e, (text <- readFile indexPath ;; JSON_parse (Some text)) w = (Thrown e, w)
       ∧ (e = ENOENT indexPath ∨ e = SyntaxError).
Proof.
  unfold stagingIndex, bind, readFile. intros Hbad.
  destruct (files w !! indexPath) as [text|]; [|eauto].
  change (Some text ≫= JSON.parse) with (JSON.parse text) in Hbad.
  unfold JSON_parse. change (default "null" (Some text)) with text.
  destruct (JSON.parse text) as [v|]; [by destruct (Hbad v)|].
  exists SyntaxError. auto.
Qed.

Lemma bind_thrown {A B} (m : M A) (k : A → M B) (w w1 : World) (e : Exn) :
  m w = (Thrown e, w1) → (x <- m ;; k x) w = (Thrown e, w1).
Proof. unfold bind. by intros ->. Qed.

Lemma updateStagingArea_fails (w : World) (filePath fileHash : string) :
  (∀ items, stagingIndex w ≠ Some (JSON.Arr items)) →
  ∃ e, updateStagingArea filePath fileHash w = (Thrown e, w)
       ∧ (e = ENOENT indexPath ∨ e = SyntaxError ∨ e = TypeError).
Proof.
  intros Hbad. unfold updateStagingArea. rewrite <- bind_assoc.
  destruct (stagingIndex w) as [v|] eqn:Hindex.
  - rewrite (bind_returned _ _ _ _ _ (read_index _ _ Hindex)).
    destruct v; try (by destruct (Hbad items)); exists TypeError; auto.
  - destruct (read_index_fails w) as (e & He & Hkind); [by rewrite Hindex|].
    rewrite (bind_thrown _ _ _ _ _ He). exists e. split; [done|tauto].
Qed.

Lemma index_unusable_not_array (w : World) :
  index_unusable w → ∀ items, stagingIndex w ≠ Some (JSON.Arr items).
Proof.
  intros [Hmissing|(v & Hv & Hshape)] items.
  - unfold stagingIndex. by rewrite Hmissing.
  - rewrite Hv. intros [= ->]. by destruct (Hshape items).
Qed.

Lemma updateStagingArea_unusable (w : World) (filePath fileHash : string) :
  index_unusable w →
  ∃ e, updateStagingArea filePath fileHash w = (Thrown e, w)
       ∧ (e = ENOENT indexPath ∨ e = TypeError).
Proof.
  intros Hbad. unfold updateStagingArea. rewrite <- bind_assoc.
  destruct Hbad as [Hmissing|(v & Hv & Hshape)].
  - exists (ENOENT indexPath). split; [|by left].
    unfold bind, readFile. by rewrite Hmissing.
  - rewrite (bind_returned _ _ _ _ _ (read_index _ _ Hv)).
    exists TypeError. split; [|by right].
    destruct v; try done. by destruct (Hshape items).
Qed.

(** [updateStagingArea] on an index file that is missing or holds a JSON
    value other than an array throws (the read error, or a [TypeError] since
    the value has no [push]) and leaves the world as it was. *)
Theorem staging_area_rejects (w : World) (filePath fileHash : string) :
  index_unusable w →
  ∃ e, updateStagingArea filePath fileHash w = (Thrown e, w)
       ∧ (e = ENOENT indexPath ∨ e = TypeError).
Proof. apply updateStagingArea_unusable. Qed.

(** [add] of a readable file, in a repository that has its objects
    directory but whose index is missing or not an array, throws only after it
    has written the blob: the object store gains the content under its hash,
    the index is untouched and nothing is printed. *)
Theorem add_writes_blob_before_failing (w : World) (fileToBeAdded content : string) :
  objects_directory_exists w →
  files w !! fileToBeAdded = Some content →
  index_unusable w →
  ∃ e, add fileToBeAdded w
       = (Thrown e,
          mkWorld (<[path_join objectsPath (hashObject content) := content]> (files w))
                  (console w))
       ∧ (e = ENOENT indexPath ∨ e = TypeError).
Proof.
  intros _ Hfile Hbad. unfold add, bind at 1, readFile at 1. rewrite Hfile.
  unfold bind at 1, writeFile at 1. set (w1 := mkWorld _ _).
  destruct (updateStagingArea_unusable w1 fileToBeAdded (hashObject content))
    as (e & He & Hkind).
  { unfold index_unusable, stagingIndex in *. subst w1. cbn [files].
    by rewrite lookup_insert_ne by auto. }
  exists e. split; [|done]. by rewrite (bind_thrown _ _ _ _ _ He).
Qed.

Lemma add_files_read (w : World) (fileToBeAdded content k : string) :
  files w !! fileToBeAdded = Some content →
  k ≠ indexPath →
  files (add fileToBeAdded w).2 !! k
  = <[path_join objectsPath (hashObject content) := content]> (files w) !! k.
Proof.
  intros Hfile Hk. unfold add, bind at 1, readFile at 1. rewrite Hfile.
  unfold bind at 1, writeFile at 1. set (w1 := mkWorld _ _). unfold bind at 1.
  pose proof (updateStagingArea_frame w1 fileToBeAdded (hashObject content) k Hk)
    as Hframe.
  by destruct (updateStagingArea fileToBeAdded (hashObject content) w1)
    as [[[]|e] w2].
Qed.

Lemma add_files_unread (w : World) (fileToBeAdded : string) :
  files w !! fileToBeAdded = None → (add fileToBeAdded w).2 = w.
Proof. intros Hfile. unfold add, bind, readFile. by rewrite Hfile. Qed.

Lemma add_lookup (w : World) (fileToBeAdded k : string) :
  files (add fileToBeAdded w).2 !! k = files w !! k
  ∨ (k = indexPath ∧ is_Some (files w !! fileToBeAdded))
  ∨ ∃ content, files w !! fileToBeAdded = Some content
               ∧ k = path_join objectsPath (hashObject content)
               ∧ files (add fileToBeAdded w).2 !! k = Some content.
Proof.
  destruct (files w !! fileToBeAdded) as [content|] eqn:Hfile;
    [|left; by rewrite add_files_unread].
  destruct (decide (k = indexPath)) as [->|Hk]; [right; left; eauto|].
  rewrite (add_files_read w fileToBeAdded content k Hfile Hk).
  destruct (decide (k = path_join objectsPath (hashObject content))) as [->|Hk'].
  - right; right. exists content. by rewrite lookup_insert_eq.
  - left. by rewrite lookup_insert_ne.
Qed.

(** Whatever its outcome, [add] changes no file other than the index and
    the object named by the hash of the content it read; every other file,
    the head file and the added file among them, is as before. *)
Theorem add_touches_blob_and_index_only (w : World) (fileToBeAdded k : string) :
  k ≠ indexPath →
  (∀ content, files w !! fileToBeAdded = Some content →
              k ≠ path_join objectsPath (hashObject content)) →
  files (add fileToBeAdded w).2 !! k = files w !! k.
Proof.
  intros Hindex Hblob.
  destruct (add_lookup w fileToBeAdded k) as [H|[[-> _]|(c & Hc & -> & _)]];
    [done|done|]. by destruct (Hblob c Hc).
Qed.

Lemma commit_lookup (w : World) (now message k : string) :
  files (commit now message w).2 !! k = files w !! k
  ∨ k = indexPath ∨ k = headPath
  ∨ ∃ text, k = path_join objectsPath (hashObject text)
            ∧ files (commit now message w).2 !! k = Some text.
Proof.
  destruct (stagingIndex w) as [index|] eqn:Hindex.
  - rewrite (commit_spec w index now message Hindex). cbn [snd files].
    destruct (decide (k = indexPath)) as [->|H1]; [auto|].
    destruct (decide (k = headPath)) as [->|H2]; [auto|].
    rewrite !(lookup_insert_ne _ _ k) by done.
    match goal with
    | |- context [<[path_join objectsPath (hashObject ?t) := _]> _] =>
        destruct (decide (k = path_join objectsPath (hashObject t))) as [->|H3];
        [right; right; right; exists t; by rewrite lookup_insert_eq
        |left; by rewrite lookup_insert_ne]
    end.
  - destruct (read_index_fails w) as (e & He & _); [by rewrite Hindex|].
    unfold commit. rewrite <- bind_assoc, (bind_thrown _ _ _ _ _ He). by left.
Qed.

(** [commit] in a repository without index file throws the read error and
    leaves the world as it was: no object is written and head is untouched. *)
Theorem commit_rejects_missing_index (w : World) (now message : string) :
  files w !! indexPath = None →
  commit now message w = (Thrown (ENOENT indexPath), w).
Proof.
  intros Hmissing. unfold commit. apply bind_thrown.
  unfold readFile. by rewrite Hmissing.
Qed.

(** [commit] on an index of file entries returns normally; head then
    names the new object; read back and parsed, that object has the clock
    reading as [timestamp], the message verbatim as [message], the entries in
    order as [files], and as [parent] the text of the previous head file, or
    [null] when there was no head file; the index holds the empty array
    again. *)
Theorem commit_snapshot (w : World) (entries : list (string * string))
    (now message : string) :
  stagingIndex w = Some (JSON.Arr (Reconstruction.entryValue <$> entries)) →
  ∃ w' h members,
    commit now message w = (Returned tt, w')
    ∧ getCurrentHead w' = (Returned (Some h), w')
    ∧ storedObject w' h = Some (JSON.Obj members)
    ∧ member "timestamp" members = Some (JSON.Str now)
    ∧ member "message" members = Some (JSON.Str message)
    ∧ member "files" members
      = Some (JSON.Arr (Reconstruction.entryValue <$> entries))
    ∧ member "parent" members
      = Some (from_option JSON.Str JSON.Null (files w !! headPath))
    ∧ stagingIndex w' = Some (JSON.Arr []).
Proof.
  intros Hindex. eexists _, _, _.
  split; [apply (commit_spec w _ now message Hindex)|].
  split.
  { rewrite getCurrentHead_spec. cbn [files].
    by rewrite lookup_insert_ne, lookup_insert_eq by auto. }
  split.
  { unfold storedObject. cbn [files].
    rewrite lookup_insert_ne, lookup_insert_ne, lookup_insert_eq by auto.
    apply JSONFacts.parse_stringify. }
  split; [done|]. split; [done|]. split; [done|].
  split; [by destruct (files w !! headPath)|].
  apply stagingIndex_stringify. apply lookup_insert_eq.
Qed.

(** Whatever its outcome, [commit] changes no file other than the index,
    the head file and a single object, the one named by the hash of one
    text. *)
Theorem commit_touches_repository_only (w : World) (now message : string) :
  ∃ text, ∀ k,
    k ≠ indexPath → k ≠ headPath → k ≠ path_join objectsPath (hashObject text) →
    files (commit now message w).2 !! k = files w !! k.
Proof.
  destruct (stagingIndex w) as [index|] eqn:Hindex.
  - rewrite (commit_spec w index now message Hindex). cbn [snd files].
    eexists. intros k H1 H2 H3. by rewrite !lookup_insert_ne.
  - destruct (read_index_fails w) as (e & He & _); [by rewrite Hindex|].
    exists "". intros k _ _ _. unfold commit.
    by rewrite <- bind_assoc, (bind_thrown _ _ _ _ _ He).
Qed.

(** The text of a commit record determines the record: two commits with the
    same serialised form have the same timestamp, message, files and
    parent. *)
Theorem commit_text_determines_record (now now' message message' : string)
    (index index' : JSON.value) (parent parent' : option string) :
  JSON.stringify (commitRecord now message index parent)
  = JSON.stringify (commitRecord now' message' index' parent') →
  now = now' ∧ message = message' ∧ index = index' ∧ parent = parent'.
Proof.
  intros Htext.
  assert (Some (commitRecord now message index parent)
          = Some (commitRecord now' message' index' parent')) as Hrecord.
  { rewrite <- !JSONFacts.parse_stringify. by rewrite Htext. }
  unfold commitRecord in Hrecord.
  destruct parent, parent'; by simplify_eq.
Qed.

End StoreFacts.

(** ** Reading history: [log] and [show] on damaged and unusual stores *)

Module HistoryFacts.
Import Coeus CoeusFacts ChainFacts Session StoreFacts.

(** *** Read-only computations *)

Lemma ReadOnly_ret {A} (a : A) : ReadOnly (ret a).
Proof. done. Qed.

Lemma ReadOnly_throw {A} (e : Exn) : ReadOnly (@throw A e).
Proof. done. Qed.

Lemma ReadOnly_bind {A B} (m : M A) (k : A → M B) :
  ReadOnly m → (∀ a, ReadOnly (k a)) → ReadOnly (x <- m ;; k x).
Proof.
  intros Hm Hk w. unfold bind. specialize (Hm w).
  destruct (m w) as [[a|e] w1]; cbn [snd] in *; [|done]. by rewrite Hk.
Qed.

Lemma ReadOnly_try_catch {A} (m : M A) (handler : Exn → M A) :
  ReadOnly m → (∀ e, ReadOnly (handler e)) → ReadOnly (try_catch m handler).
Proof.
  intros Hm Hh w. unfold try_catch. specialize (Hm w).
  destruct (m w) as [[a|e] w1]; cbn [snd] in *; [done|]. by rewrite Hh.
Qed.

Lemma ReadOnly_readFile (path : string) : ReadOnly (readFile path).
Proof. intros w. unfold readFile. by destruct (files w !! path). Qed.

Lemma ReadOnly_emit (e : Event) : ReadOnly (emit e).
Proof. done. Qed.

Lemma ReadOnly_for_each {A} (body : A → M unit) (l : list A) :
  (∀ a, ReadOnly (body a)) → ReadOnly (for_each body l).
Proof.
  intros Hbody. induction l as [|a l IH]; [done|].
  cbn [for_each]. by apply ReadOnly_bind.
Qed.

Lemma ReadOnly_prop (v : JsValue) (k : string) : ReadOnly (prop v k).
Proof. by destruct v as [[]|]. Qed.

Lemma ReadOnly_objectPath (x : JsValue) : ReadOnly (objectPath x).
Proof. by destruct x as [[]|]. Qed.

Lemma ReadOnly_JSON_parse (x : option string) : ReadOnly (JSON_parse x).
Proof. intros w. unfold JSON_parse. by destruct (JSON.parse _). Qed.

Lemma ReadOnly_iterate (v : JsValue) : ReadOnly (iterate v).
Proof. by destruct v as [[]|]. Qed.

Lemma ReadOnly_getCurrentHead : ReadOnly getCurrentHead.
Proof. intros w. by rewrite getCurrentHead_spec. Qed.

Lemma ReadOnly_getFileContent (h : JsValue) : ReadOnly (getFileContent h).
Proof.
  apply ReadOnly_bind; [apply ReadOnly_objectPath|]. intros. apply ReadOnly_readFile.
Qed.

Lemma ReadOnly_getCommitData (h : JsValue) : ReadOnly (getCommitData h).
Proof.
  apply ReadOnly_bind; [apply ReadOnly_objectPath|]. intros p.
  apply ReadOnly_try_catch.
  - apply ReadOnly_bind; [apply ReadOnly_readFile|]. intros. apply ReadOnly_ret.
  - intros e. apply ReadOnly_bind; [apply ReadOnly_emit|]. intros. apply ReadOnly_ret.
Qed.

Lemma ReadOnly_find_path (filePath : JsValue) (l : list JSON.value) :
  ReadOnly (find_path filePath l).
Proof.
  induction l as [|file l IH]; [done|]. cbn [find_path].
  apply ReadOnly_bind; [apply ReadOnly_prop|]. intros p.
  by destruct (strict_eq p filePath).
Qed.

Lemma ReadOnly_getParentFileContent (c : JSON.value) (filePath : JsValue) :
  ReadOnly (getParentFileContent c filePath).
Proof.
  apply ReadOnly_bind; [apply ReadOnly_prop|]. intros [[| | |items|]|]; try done.
  apply ReadOnly_bind; [apply ReadOnly_find_path|]. intros parentFile.
  destruct (truthy parentFile); [|done].
  apply ReadOnly_bind; [apply ReadOnly_prop|]. intros h.
  apply ReadOnly_bind; [apply ReadOnly_getFileContent|]. intros. apply ReadOnly_ret.
Qed.

Lemma ReadOnly_writePart (part : Change) : ReadOnly (writePart part).
Proof. unfold writePart. by destruct (added part), (removed part). Qed.

Lemma ReadOnly_showFile (diffLines : string → string → list Change)
    (commitData file : JSON.value) :
  ReadOnly (showFile diffLines commitData file).
Proof.
  apply ReadOnly_bind; [apply ReadOnly_prop|]. intros filePath.
  apply ReadOnly_bind; [apply ReadOnly_emit|]. intros _.
  apply ReadOnly_bind; [apply ReadOnly_prop|]. intros fileHash.
  apply ReadOnly_bind; [apply ReadOnly_getFileContent|]. intros fileContent.
  apply ReadOnly_bind; [apply ReadOnly_emit|]. intros _.
  apply ReadOnly_bind; [apply ReadOnly_prop|]. intros parent.
  destruct (truthy parent); [|apply ReadOnly_emit].
  apply ReadOnly_bind; [apply ReadOnly_getCommitData|]. intros parentText.
  apply ReadOnly_bind; [apply ReadOnly_JSON_parse|]. intros parentCommitData.
  apply ReadOnly_bind; [apply ReadOnly_getParentFileContent|]. intros [old|].
  - apply ReadOnly_bind; [apply ReadOnly_emit|]. intros _.
    apply ReadOnly_bind; [|intros; apply ReadOnly_emit].
    apply ReadOnly_for_each, ReadOnly_writePart.
  - apply ReadOnly_emit.
Qed.

Lemma ReadOnly_showCommitDiff (diffLines : string → string → list Change)
    (commitHash : string) :
  ReadOnly (showCommitDiff diffLines commitHash).
Proof.
  apply ReadOnly_bind; [apply ReadOnly_getCommitData|]. intros text.
  apply ReadOnly_bind; [apply ReadOnly_JSON_parse|]. intros commitData.
  destruct (negb (truthy (Some commitData))); [apply ReadOnly_emit|].
  apply ReadOnly_bind; [apply ReadOnly_emit|]. intros _.
  apply ReadOnly_bind; [apply ReadOnly_prop|]. intros commitFiles.
  apply ReadOnly_bind; [apply ReadOnly_iterate|]. intros items.
  apply ReadOnly_for_each, ReadOnly_showFile.
Qed.

Lemma ReadOnly_log_loop (fuel : nat) : ∀ current, ReadOnly (log_loop fuel current).
Proof.
  induction fuel as [|fuel IH]; intros current; cbn [log_loop];
    destruct (truthy current); try done.
  apply ReadOnly_bind; [apply ReadOnly_objectPath|]. intros commitPath.
  apply ReadOnly_bind; [apply ReadOnly_readFile|]. intros text.
  apply ReadOnly_bind; [apply ReadOnly_JSON_parse|]. intros commitData.
  apply ReadOnly_bind; [apply ReadOnly_emit|]. intros _.
  apply ReadOnly_bind; [apply ReadOnly_prop|]. intros timestamp.
  apply ReadOnly_bind; [apply ReadOnly_prop|]. intros message.
  apply ReadOnly_bind; [apply ReadOnly_emit|]. intros _.
  apply ReadOnly_bind; [apply ReadOnly_prop|]. intros parent. apply IH.
Qed.

Lemma ReadOnly_log (fuel : nat) : ReadOnly (log fuel).
Proof.
  apply ReadOnly_bind; [apply ReadOnly_getCurrentHead|]. intros head.
  apply ReadOnly_log_loop.
Qed.

(** [log] changes no file, whatever the repository holds, however long it
    runs, and whether it finishes, is still running or throws. *)
Theorem log_changes_no_file (fuel : nat) (w : World) :
  files (log fuel w).2 = files w.
Proof. apply ReadOnly_log. Qed.

(** [show] changes no file, for every argument, every diff engine and every
    content of the repository, also when it throws half way. *)
Theorem show_changes_no_file (diffLines : string → string → list Change)
    (commitHash : string) (w : World) :
  files (showCommitDiff diffLines commitHash w).2 = files w.
Proof. apply ReadOnly_showCommitDiff. Qed.

(** [log] on a repository whose head file is empty or missing prints
    nothing and finishes at once. *)
Theorem log_without_commits (fuel : nat) (w : World) :
  files w !! headPath = None ∨ files w !! headPath = Some "" →
  log fuel w = (Returned Finished, w).
Proof.
  intros Hhead. unfold log.
  rewrite (bind_returned _ _ _ _ _ (getCurrentHead_spec w)).
  by destruct Hhead as [-> | ->], fuel.
Qed.



(** *** [show] *)

Lemma find_path_first (filePath oldHash : string) (pre post : list JSON.value)
    (w : World) :
  Forall (λ e, ∃ p h, e = fileEntry p h ∧ p ≠ filePath) pre →
  find_path (Some (JSON.Str filePath)) (pre ++ fileEntry filePath oldHash :: post) w
  = (Returned (Some (fileEntry filePath oldHash)), w).
Proof.
  induction 1 as [|e pre (p & h & -> & Hp) _ IH]; cbn [app find_path].
  - unfold bind. cbn [prop fileEntry ret member].
    rewrite decide_False, decide_True by done.
    cbn [strict_eq]. by rewrite bool_decide_eq_true_2.
  - unfold bind at 1. cbn [prop fileEntry ret member].
    rewrite decide_False, decide_True by done.
    cbn [strict_eq]. rewrite bool_decide_eq_false_2; [exact IH|]. by intros [= ->].
Qed.

Lemma for_each_writePart (parts : list Change) (w : World) :
  for_each writePart parts w
  = (Returned tt, mkWorld (files w) (console w ++ map rendered parts)).
Proof.
  revert w. induction parts as [|part parts IH]; intros w.
  - cbn. by rewrite app_nil_r, world_eta.
  - cbn [for_each map].
    assert (writePart part w
            = (Returned tt, mkWorld (files w) (console w ++ [rendered part]))) as Hpart.
    { unfold writePart, rendered, emit. by destruct (added part), (removed part). }
    rewrite (bind_returned _ _ _ _ _ Hpart), IH. cbn [files console].
    by rewrite <- app_assoc.
Qed.

Lemma showFile_diff (diffLines : string → string → list Change)
    (w : World) (now message : string) (commitFiles : JSON.value)
    (parentHash pnow pmessage : string) (pre post : list JSON.value)
    (grandparent : option string) (filePath fileHash content oldHash old : string) :
  files w !! path_join objectsPath fileHash = Some content →
  parentHash ≠ "" →
  storedObject w parentHash
  = Some (commitRecord pnow pmessage
            (JSON.Arr (pre ++ fileEntry filePath oldHash :: post)) grandparent) →
  Forall (λ e, ∃ p h, e = fileEntry p h ∧ p ≠ filePath) pre →
  files w !! path_join objectsPath oldHash = Some old →
  showFile diffLines (commitRecord now message commitFiles (Some parentHash))
           (fileEntry filePath fileHash) w
  = (Returned tt,
     mkWorld (files w)
             (console w
                ++ [Log ("File: " +:+ filePath); Log content; Log (LF +:+ "Diff:")]
                ++ map rendered (diffLines old content) ++ [Log ""])).
Proof.
  intros Hblob Hph (ptext & Hpobj & Hpparse)%storedObject_inv Hpre Hold.
  assert (∀ c, files (mkWorld (files w) c) !! path_join objectsPath parentHash
               = Some ptext) as Hpobj' by done.
  assert (∀ c, files (mkWorld (files w) c) !! path_join objectsPath oldHash
               = Some old) as Hold' by done.
  rewrite (showFile_read _ _ _ _ _ _ Hblob).
  erewrite bind_returned; [|reflexivity]. cbn [commitRecord member].
  rewrite decide_True by done.
  destruct parentHash as [|c r]; [done|]. cbn [truthy].
  rewrite (bind_returned _ _ _ _ _ (getCommitData_stored _ _ ptext (Hpobj' _))).
  rewrite (bind_returned _ _ _ _ _ (JSON_parse_text _ _ _ Hpparse)).
  assert (∀ c0,
    getParentFileContent
      (JSON.Obj [("timestamp", JSON.Str pnow); ("message", JSON.Str pmessage);
                 ("files", JSON.Arr (pre ++ fileEntry filePath oldHash :: post));
                 ("parent", from_option JSON.Str JSON.Null grandparent)])
      (Some (JSON.Str filePath)) (mkWorld (files w) c0)
    = (Returned (Some old), mkWorld (files w) c0)) as Hparent.
  { intros c0. unfold getParentFileContent.
    erewrite bind_returned; [|reflexivity]. cbn [member].
    rewrite decide_False, decide_True by done.
    rewrite (bind_returned _ _ _ _ _ (find_path_first _ _ _ _ _ Hpre)).
    cbn [truthy fileEntry].
    erewrite bind_returned; [|reflexivity]. cbn [member].
    rewrite decide_True by done.
    by rewrite (bind_returned _ _ _ _ _ (getFileContent_stored _ _ _ (Hold' _))). }
  change (match grandparent with Some h => JSON.Str h | None => JSON.Null end)
    with (from_option JSON.Str JSON.Null grandparent).
  rewrite (bind_returned _ _ _ _ _ (Hparent _)).
  unfold bind at 1, console_log at 1, emit at 1. cbn [files console].
  rewrite (bind_returned _ _ _ _ _ (for_each_writePart _ _)).
  unfold console_log, emit. cbn [files console].
  by rewrite <- !app_assoc.
Qed.

(** One iteration of [show] for a file whose path the parent commit lists:
    the diff engine is given the parent's content and then the commit's
    content, and the iteration prints the path, the content, the "Diff:"
    heading, each change (added ones in green after "++", removed ones in red
    after "--", the others in grey) and an empty line.  When the parent lists
    the path more than once, the first entry is the one compared with. *)
Theorem show_file_diff (diffLines : string → string → list Change)
    (w : World) (now message : string) (commitFiles : JSON.value)
    (parentHash pnow pmessage : string) (pre post : list JSON.value)
    (grandparent : option string) (filePath fileHash content oldHash old : string) :
  files w !! path_join objectsPath fileHash = Some content →
  parentHash ≠ "" →
  storedObject w parentHash
  = Some (commitRecord pnow pmessage
            (JSON.Arr (pre ++ fileEntry filePath oldHash :: post)) grandparent) →
  Forall (λ e, ∃ p h, e = fileEntry p h ∧ p ≠ filePath) pre →
  files w !! path_join objectsPath oldHash = Some old →
  showFile diffLines (commitRecord now message commitFiles (Some parentHash))
           (fileEntry filePath fileHash) w
  = (Returned tt,
     mkWorld (files w)
             (console w
                ++ [Log ("File: " +:+ filePath); Log content; Log (LF +:+ "Diff:")]
                ++ map rendered (diffLines old content) ++ [Log ""])).
Proof.
  apply showFile_diff.
Qed.

(** One iteration of [show] for a commit whose parent hash (a single path
    segment) has no object in the store: after the path, the content and the
    report of the failed read,
    the iteration throws a [TypeError]; no marker is printed. *)
Theorem show_file_missing_parent (diffLines : string → string → list Change)
    (w : World) (now message : string) (commitFiles : JSON.value)
    (parentHash filePath fileHash content : string) :
  files w !! path_join objectsPath fileHash = Some content →
  segment parentHash = true →
  files w !! path_join objectsPath parentHash = None →
  showFile diffLines (commitRecord now message commitFiles (Some parentHash))
           (fileEntry filePath fileHash) w
  = (Thrown TypeError,
     mkWorld (files w)
             (console w
                ++ [Log ("File: " +:+ filePath); Log content;
                    LogError "Failed to read the commit data"
                             (ENOENT (path_join objectsPath parentHash))])).
Proof.
  intros Hblob Hph Hpobj.
  rewrite (showFile_read _ _ _ _ _ _ Hblob).
  erewrite bind_returned; [|reflexivity]. cbn [commitRecord member].
  rewrite decide_True by done.
  destruct parentHash as [|c r]; [discriminate Hph|]. cbn [truthy].
  erewrite bind_returned; [|by apply getCommitData_missing].
  rewrite (bind_returned _ _ _ _ _ (JSON_parse_null _)).
  cbn [files console]. unfold bind, getParentFileContent, prop, throw.
  by rewrite <- !app_assoc.
Qed.

(** One iteration of [show] for an entry whose hash (a single path
    segment) has no blob in the store: the path is printed and the read error
    is thrown, uncaught. *)
Theorem show_file_missing_blob (diffLines : string → string → list Change)
    (w : World) (commitData : JSON.value) (filePath fileHash : string) :
  segment fileHash = true →
  files w !! path_join objectsPath fileHash = None →
  showFile diffLines commitData (fileEntry filePath fileHash) w
  = (Thrown (ENOENT (path_join objectsPath fileHash)),
     mkWorld (files w) (console w ++ [Log ("File: " +:+ filePath)])).
Proof.
  intros _ Hblob. unfold showFile. unfold bind at 1. cbn [prop fileEntry ret member].
  rewrite decide_False, decide_True by done.
  unfold bind at 1, console_log at 1, emit at 1.
  unfold bind at 1. cbn [prop fileEntry ret member].
  rewrite decide_True by done.
  erewrite bind_thrown; [reflexivity|].
  unfold getFileContent, bind, objectPath, ret, readFile. cbn [files].
  by rewrite Hblob.
Qed.

Lemma parse_value_not_json_start (fuel : nat) (text : string) :
  not_json_start text = true → JSON.parse_value fuel text = None.
Proof.
  unfold not_json_start. destruct fuel as [|fuel]; [done|]. simpl.
  destruct (JSON.skip_ws text) as [|c r]; [done|].
  destruct c as [[] [] [] [] [] [] [] []]; intros H;
    first [discriminate H | reflexivity].
Qed.

(** [show] of an object whose text cannot begin a JSON value, a blob of
    plain text for instance, throws a [SyntaxError]; nothing is printed. *)
Theorem show_rejects_non_json (diffLines : string → string → list Change)
    (w : World) (commitHash text : string) :
  files w !! path_join objectsPath commitHash = Some text →
  not_json_start text = true →
  showCommitDiff diffLines commitHash w = (Thrown SyntaxError, w).
Proof.
  intros Hobj Hstart. unfold showCommitDiff.
  rewrite (bind_returned _ _ _ _ _ (getCommitData_stored _ _ _ Hobj)).
  apply bind_thrown. unfold JSON_parse.
  change (default "null" (Some text)) with text.
  unfold JSON.parse. by rewrite parse_value_not_json_start.
Qed.

End HistoryFacts.

(** ** Invariants of sessions *)

Module SessionFacts.
Import Coeus CoeusFacts Session StoreFacts HistoryFacts.

Lemma KeepsFiles_ReadOnly {A} (m : M A) : ReadOnly m → KeepsFiles m.
Proof. intros Hm w k. by rewrite Hm. Qed.

Lemma KeepsFiles_bind {A B} (m : M A) (k : A → M B) :
  KeepsFiles m → (∀ a, KeepsFiles (k a)) → KeepsFiles (x <- m ;; k x).
Proof.
  intros Hm Hk w p Hp. unfold bind. specialize (Hm w p Hp).
  destruct (m w) as [[a|e] w1]; cbn [snd] in *; [|done]. by apply Hk.
Qed.

Lemma KeepsFiles_try_catch {A} (m : M A) (handler : Exn → M A) :
  KeepsFiles m → (∀ e, KeepsFiles (handler e)) → KeepsFiles (try_catch m handler).
Proof.
  intros Hm Hh w p Hp. unfold try_catch. specialize (Hm w p Hp).
  destruct (m w) as [[a|e] w1]; cbn [snd] in *; [done|]. by apply Hh.
Qed.

Lemma KeepsFiles_writeFile (path text : string) : KeepsFiles (writeFile path text).
Proof.
  intros w k Hk. cbn. destruct (decide (path = k)) as [->|Hne].
  - by rewrite lookup_insert_eq.
  - by rewrite lookup_insert_ne.
Qed.

Lemma KeepsFiles_writeFile_wx (path text : string) :
  KeepsFiles (writeFile_wx path text).
Proof.
  intros w k Hk. unfold writeFile_wx.
  destruct (files w !! path); [done|]. by apply KeepsFiles_writeFile.
Qed.

Lemma KeepsFiles_init : KeepsFiles init.
Proof.
  apply KeepsFiles_try_catch.
  - apply KeepsFiles_bind; [|intros _]; apply KeepsFiles_writeFile_wx.
  - intros e. by apply KeepsFiles_ReadOnly.
Qed.

Lemma KeepsFiles_updateStagingArea (filePath fileHash : string) :
  KeepsFiles (updateStagingArea filePath fileHash).
Proof.
  apply KeepsFiles_bind; [apply KeepsFiles_ReadOnly, ReadOnly_readFile|]. intros text.
  apply KeepsFiles_bind; [apply KeepsFiles_ReadOnly, ReadOnly_JSON_parse|].
  intros [| | |items|]; try by apply KeepsFiles_ReadOnly.
  apply KeepsFiles_writeFile.
Qed.

Lemma KeepsFiles_add (fileToBeAdded : string) : KeepsFiles (add fileToBeAdded).
Proof.
  apply KeepsFiles_bind; [apply KeepsFiles_ReadOnly, ReadOnly_readFile|].
  intros fileData.
  apply KeepsFiles_bind; [apply KeepsFiles_writeFile|]. intros _.
  apply KeepsFiles_bind; [apply KeepsFiles_updateStagingArea|]. intros _.
  by apply KeepsFiles_ReadOnly.
Qed.

Lemma KeepsFiles_commit (now message : string) : KeepsFiles (commit now message).
Proof.
  apply KeepsFiles_bind; [apply KeepsFiles_ReadOnly, ReadOnly_readFile|]. intros text.
  apply KeepsFiles_bind; [apply KeepsFiles_ReadOnly, ReadOnly_JSON_parse|].
  intros index.
  apply KeepsFiles_bind; [apply KeepsFiles_ReadOnly, ReadOnly_getCurrentHead|].
  intros parentCommit.
  apply KeepsFiles_bind; [apply KeepsFiles_writeFile|]. intros _.
  apply KeepsFiles_bind; [apply KeepsFiles_writeFile|]. intros _.
  apply KeepsFiles_bind; [apply KeepsFiles_writeFile|]. intros _.
  by apply KeepsFiles_ReadOnly.
Qed.

Section Invariants.

Variable diffLines : string → string → list Change.

Lemma ReadOnly_call_log (fuel : nat) : ReadOnly (call diffLines (CallLog fuel)).
Proof. apply ReadOnly_bind; [apply ReadOnly_log|]. intros. apply ReadOnly_ret. Qed.

Lemma KeepsFiles_call (c : Call) : KeepsFiles (call diffLines c).
Proof.
  destruct c; cbn [call].
  - apply KeepsFiles_init.
  - apply KeepsFiles_add.
  - apply KeepsFiles_commit.
  - apply KeepsFiles_ReadOnly, ReadOnly_call_log.
  - apply KeepsFiles_ReadOnly, ReadOnly_showCommitDiff.
Qed.

Lemma session_invariant (P : World → Prop) :
  (∀ c w, P w → P ((call diffLines c w).2)) →
  ∀ calls w, P w → P (session diffLines calls w).
Proof.
  intros Hstep calls. induction calls as [|c calls IH]; intros w Hw; [done|].
  cbn [session]. by apply IH, Hstep.
Qed.

(** No sequence of calls removes a file: what can be read before can be
    read after, whichever calls returned and whichever threw. *)
Theorem session_removes_no_file (calls : list Call) (w : World) (k : string) :
  is_Some (files w !! k) → is_Some (files (session diffLines calls w) !! k).
Proof.
  revert w. apply (session_invariant (λ w, is_Some (files w !! k))).
  intros c w. apply KeepsFiles_call.
Qed.

Lemma call_object (c : Call) (w : World) (h text : string) :
  files (call diffLines c w).2 !! path_join objectsPath h = Some text →
  files w !! path_join objectsPath h = Some text ∨ hashObject text = h.
Proof.
  destruct c as [|p|now message|fuel|commitHash].
  - cbn [call]. rewrite init_cases.
    destruct (files w !! headPath), (files w !! indexPath); cbn [snd files];
      rewrite ?lookup_insert_ne by auto; auto.
  - cbn [call]. destruct (add_lookup w p (path_join objectsPath h))
      as [->|[[Hk _]|(content & _ & Hk & ->)]]; [auto| |].
    + by destruct (object_path_not_index h).
    + intros [= ->]. right. by apply object_path_inj in Hk.
  - cbn [call]. destruct (commit_lookup w now message (path_join objectsPath h))
      as [->|[Hk|[Hk|(t & Hk & ->)]]]; [auto| | |].
    + by destruct (object_path_not_index h).
    + by destruct (object_path_not_head h).
    + intros [= ->]. right. by apply object_path_inj in Hk.
  - rewrite ReadOnly_call_log. auto.
  - cbn [call]. rewrite ReadOnly_showCommitDiff. auto.
Qed.

(** Content addressing is an invariant: if every object is stored under
    the SHA-1 digest of its text, the same holds after any sequence of
    calls. *)
Theorem session_keeps_addressing (calls : list Call) (w : World) :
  addressed w → addressed (session diffLines calls w).
Proof.
  revert w. apply session_invariant. intros c w Hw h text Hobj.
  destruct (call_object c w h text Hobj) as [Hold|Hnew]; [by apply Hw|done].
Qed.

Lemma call_index (c : Call) (w : World) :
  index_is_array w → index_is_array (call diffLines c w).2.
Proof.
  intros [items Hindex].
  destruct c as [|p|now message|fuel|commitHash].
  - exists items. unfold stagingIndex in *. cbn [call]. rewrite init_cases.
    destruct (files w !! headPath), (files w !! indexPath) eqn:Hix;
      cbn [snd files]; rewrite ?lookup_insert_ne by auto; by rewrite ?Hix.
  - cbn [call]. destruct (files w !! p) as [content|] eqn:Hfile.
    + rewrite (add_spec w items p content Hfile Hindex). eexists.
      apply stagingIndex_stringify. apply lookup_insert_eq.
    + rewrite add_files_unread by done. by exists items.
  - cbn [call]. rewrite (commit_spec w _ now message Hindex). eexists.
    apply stagingIndex_stringify. apply lookup_insert_eq.
  - exists items. unfold stagingIndex in *. by rewrite ReadOnly_call_log.
  - exists items. unfold stagingIndex in *. cbn [call].
    by rewrite ReadOnly_showCommitDiff.
Qed.

(** Once the index holds a JSON array it does so after any sequence of
    calls; then [commit] always returns normally, and [add] returns normally
    for every file that can be read. *)
Theorem session_keeps_index (calls : list Call) (w : World) :
  index_is_array w →
  let w' := session diffLines calls w in
  index_is_array w'
  ∧ (∀ now message, (commit now message w').1 = Returned tt)
  ∧ (∀ p content, files w' !! p = Some content → (add p w').1 = Returned tt).
Proof.
  intros Hw w'.
  assert (index_is_array w') as [items Hindex].
  { subst w'. revert w Hw. apply session_invariant. intros c w. apply call_index. }
  split; [by exists items|]. split.
  - intros now message. by rewrite (commit_spec w' _ now message Hindex).
  - intros p content Hfile. by rewrite (add_spec w' items p content Hfile Hindex).
Qed.

Lemma call_head (c : Call) (w : World) :
  head_resolves w → head_resolves (call diffLines c w).2.
Proof.
  intros Hw.
  assert (files (call diffLines c w).2 !! headPath = files w !! headPath →
          head_resolves (call diffLines c w).2) as Hsame.
  { intros Hhead h Hh Hne. rewrite Hhead in Hh.
    by apply KeepsFiles_call, Hw. }
  destruct c as [|p|now message|fuel|commitHash].
  - destruct (files w !! headPath) as [hd|] eqn:Hhead.
    + apply Hsame. cbn [call]. by rewrite init_cases, Hhead.
    + intros h Hh Hne. cbn [call] in Hh. rewrite init_cases, Hhead in Hh.
      destruct (files w !! indexPath); cbn [snd files] in Hh;
        rewrite ?lookup_insert_ne, ?lookup_insert_eq in Hh by auto; by simplify_eq.
  - apply Hsame. cbn [call].
    destruct (add_lookup w p headPath) as [->|[[Hk _]|(content & _ & Hk & _)]];
      [done| |].
    + by destruct head_not_index.
    + by destruct (object_path_not_head (hashObject content)).
  - destruct (stagingIndex w) as [index|] eqn:Hindex.
    + intros h Hh Hne. cbn [call] in *.
      rewrite (commit_spec w index now message Hindex) in *. cbn [snd files] in *.
      rewrite lookup_insert_ne, lookup_insert_eq in Hh by auto. simplify_eq.
      by rewrite lookup_insert_ne, lookup_insert_ne, lookup_insert_eq by auto.
    + apply Hsame. cbn [call].
      destruct (read_index_fails w) as (e & He & _); [by rewrite Hindex|].
      unfold commit. by rewrite <- bind_assoc, (bind_thrown _ _ _ _ _ He).
  - apply Hsame. by rewrite ReadOnly_call_log.
  - apply Hsame. cbn [call]. by rewrite ReadOnly_showCommitDiff.
Qed.

(** Head never dangles: if the head file is empty or names a stored
    object, the same holds after any sequence of calls. *)
Theorem session_keeps_head (calls : list Call) (w : World) :
  head_resolves w → head_resolves (session diffLines calls w).
Proof. revert w. apply session_invariant. intros c w. apply call_head. Qed.

End Invariants.

(** The digest [hashObject] returns is always 40 characters long, each a
    decimal digit or a letter from a to f. *)
Theorem hashObject_format (content : string) :
  String.length (hashObject content) = 40
  ∧ forallb is_hex (list_ascii_of_string (hashObject content)) = true.
Proof.
  split; [apply hashObject_length|].
  assert (∀ x, is_hex (SHA1.hex_digit x) = true) as Hhex.
  { intros x. unfold SHA1.hex_digit.
    assert (N.land x 0xF < 16)%N as Hlt.
    { change 0xF%N with (N.ones 4). rewrite N.land_ones. by apply N.mod_lt. }
    destruct (N.land x 0xF) as [|p]; [reflexivity|].
    do 4 (try destruct p as [p|p|]); try reflexivity; lia. }
  unfold hashObject, SHA1.hexdigest.
  destruct (SHA1.digest content) as [[[[h0 h1] h2] h3] h4]. unfold SHA1.hex8.
  repeat (rewrite string_app_cons || rewrite string_app_nil_l).
  cbn [list_ascii_of_string forallb]. by rewrite !Hhex.
Qed.

End SessionFacts.

(** ** The further properties on the worked scenario *)

Module ScenarioMore.
Import Coeus CoeusFacts Session Scenario StoreFacts HistoryFacts SessionFacts.

Lemma nothing_directories_free : directories_free nothing.
Proof.
  split; [reflexivity|]. split; [reflexivity|].
  intros k [text Hk]. discriminate Hk.
Defined.

Lemma init_creates_witness :
  directories_free nothing
  ∧ files nothing !! headPath = None
  ∧ files nothing !! indexPath = None
  ∧ ∃ w', init nothing = (Returned tt, w') ∧ stagingIndex w' = Some (JSON.Arr []).
Proof.
  split; [exact nothing_directories_free|].
  split; [reflexivity|]. split; [reflexivity|].
  destruct (init_creates nothing nothing_directories_free eq_refl eq_refl)
    as (w' & Hrun & _ & Hindex & _).
  exists w'. split; [exact Hrun|exact Hindex].
Defined.


Lemma init_idempotent_witness :
  directories_free nothing
  ∧ (init nothing).1 = Returned tt
  ∧ files (init (init nothing).2).2 = files (init nothing).2.
Proof.
  split; [exact nothing_directories_free|].
  destruct (init_idempotent nothing nothing_directories_free) as (Hrun & _ & Hagain).
  split; [exact Hrun|exact Hagain].
Defined.

Lemma staging_area_rejects_witness :
  index_unusable bare
  ∧ ∃ e, updateStagingArea "a.txt" (hashObject "hello") bare = (Thrown e, bare)
         ∧ (e = ENOENT indexPath ∨ e = TypeError).
Proof.
  assert (index_unusable bare) as H by (left; reflexivity).
  split; [exact H|].
  exact (staging_area_rejects bare "a.txt" (hashObject "hello") H).
Defined.

Lemma lost_index_objects : objects_directory_exists lost_index.
Proof.
  exists (hashObject "hello"). split; [apply hashObject_segment|].
  exists "hello". vm_compute. reflexivity.
Defined.

Lemma add_writes_blob_before_failing_witness :
  objects_directory_exists lost_index
  ∧ files lost_index !! "b.txt" = Some "world"
  ∧ index_unusable lost_index
  ∧ ∃ e, add "b.txt" lost_index
         = (Thrown e,
            mkWorld (<[path_join objectsPath (hashObject "world") := "world"]>
                       (files lost_index)) (console lost_index))
         ∧ (e = ENOENT indexPath ∨ e = TypeError).
Proof.
  assert (files lost_index !! "b.txt" = Some "world") as Hfile
    by (vm_compute; reflexivity).
  assert (index_unusable lost_index) as Hindex by (left; vm_compute; reflexivity).
  split; [exact lost_index_objects|]. split; [exact Hfile|]. split; [exact Hindex|].
  exact (add_writes_blob_before_failing lost_index "b.txt" "world"
           lost_index_objects Hfile Hindex).
Defined.

Lemma object_path_first (h : string) :
  String.get 0 (path_join objectsPath h) = Some "."%char.
Proof. reflexivity. Qed.

Lemma add_touches_blob_and_index_only_witness :
  "a.txt" ≠ indexPath
  ∧ files (add "a.txt" tree).2 !! "a.txt" = files tree !! "a.txt".
Proof.
  assert ("a.txt" ≠ indexPath) as H1 by discriminate.
  split; [exact H1|].
  apply (add_touches_blob_and_index_only tree "a.txt" "a.txt" H1).
  intros content _ H.
  pose proof (object_path_first (hashObject content)) as Hfirst.
  rewrite <- H in Hfirst. discriminate Hfirst.
Defined.

Lemma commit_rejects_missing_index_witness :
  files bare !! indexPath = None
  ∧ commit t1 "first" bare = (Thrown (ENOENT indexPath), bare).
Proof.
  split; [reflexivity|].
  exact (commit_rejects_missing_index bare t1 "first" eq_refl).
Defined.

Lemma commit_snapshot_witness :
  stagingIndex staged
  = Some (JSON.Arr (Reconstruction.entryValue <$> [("a.txt", hashObject "hello")]))
  ∧ ∃ w' h members,
      commit t1 "first" staged = (Returned tt, w')
      ∧ getCurrentHead w' = (Returned (Some h), w')
      ∧ storedObject w' h = Some (JSON.Obj members)
      ∧ member "files" members
        = Some (JSON.Arr (Reconstruction.entryValue <$> [("a.txt", hashObject "hello")]))
      ∧ member "parent" members = Some (JSON.Str "")
      ∧ stagingIndex w' = Some (JSON.Arr []).
Proof.
  assert (stagingIndex staged
          = Some (JSON.Arr (Reconstruction.entryValue
                              <$> [("a.txt", hashObject "hello")]))) as H
    by (vm_compute; reflexivity).
  split; [exact H|].
  destruct (commit_snapshot staged [("a.txt", hashObject "hello")] t1 "first" H)
    as (w' & h & members & Hrun & Hhead & Hobj & _ & _ & Hfiles & Hparent & Hindex).
  exists w', h, members.
  split; [exact Hrun|]. split; [exact Hhead|]. split; [exact Hobj|].
  split; [exact Hfiles|]. split; [exact Hparent|exact Hindex].
Defined.

Lemma commit_text_determines_record_witness :
  JSON.stringify (commitRecord t1 "first" (JSON.Arr []) (Some ""))
  = JSON.stringify (commitRecord t1 "first" (JSON.Arr []) (Some ""))
  ∧ t1 = t1.
Proof.
  split; [reflexivity|].
  apply (commit_text_determines_record t1 t1 "first" "first" (JSON.Arr []) (JSON.Arr [])
           (Some "") (Some "") eq_refl).
Defined.

Lemma log_without_commits_witness :
  (files fresh !! headPath = None ∨ files fresh !! headPath = Some "")
  ∧ log 0 fresh = (Returned Finished, fresh).
Proof.
  assert (files fresh !! headPath = None ∨ files fresh !! headPath = Some "") as H
    by (right; reflexivity).
  split; [exact H|]. apply (log_without_commits 0 fresh H).
Defined.


Lemma show_file_diff_witness :
  files edited !! path_join objectsPath (hashObject "hello again") = Some "hello again"
  ∧ files edited !! path_join objectsPath (hashObject "hello") = Some "hello"
  ∧ storedObject edited (hashObject (JSON.stringify commit_one)) = Some commit_one
  ∧ showFile all_added
             (commitRecord t2 "second"
                (JSON.Arr [fileEntry "a.txt" (hashObject "hello again")])
                (Some (hashObject (JSON.stringify commit_one))))
             (fileEntry "a.txt" (hashObject "hello again")) edited
    = (Returned tt,
       mkWorld (files edited)
               (console edited
                  ++ [Log "File: a.txt"; Log "hello again"; Log (LF +:+ "Diff:")]
                  ++ map rendered (all_added "hello" "hello again") ++ [Log ""])).
Proof.
  assert (files edited !! path_join objectsPath (hashObject "hello again")
          = Some "hello again") as H1 by (vm_compute; reflexivity).
  assert (files edited !! path_join objectsPath (hashObject "hello") = Some "hello")
    as H2 by (vm_compute; reflexivity).
  assert (storedObject edited (hashObject (JSON.stringify commit_one))
          = Some commit_one) as H3 by (vm_compute; reflexivity).
  split; [exact H1|]. split; [exact H2|]. split; [exact H3|].
  exact (show_file_diff all_added edited t2 "second" _
           (hashObject (JSON.stringify commit_one)) t1 "first" [] [] (Some "")
           "a.txt" (hashObject "hello again") "hello again" (hashObject "hello") "hello"
           H1 (hashObject_nonempty _) H3 (Forall_nil_2 _) H2).
Defined.

Lemma show_file_missing_parent_witness :
  files edited !! path_join objectsPath (hashObject "hello") = Some "hello"
  ∧ segment "abc" = true
  ∧ files edited !! path_join objectsPath "abc" = None
  ∧ showFile all_added
             (commitRecord t2 "second" (JSON.Arr []) (Some "abc"))
             (fileEntry "a.txt" (hashObject "hello")) edited
    = (Thrown TypeError,
       mkWorld (files edited)
               (console edited
                  ++ [Log "File: a.txt"; Log "hello";
                      LogError "Failed to read the commit data"
                               (ENOENT (path_join objectsPath "abc"))])).
Proof.
  assert (files edited !! path_join objectsPath (hashObject "hello") = Some "hello")
    as H1 by (vm_compute; reflexivity).
  assert (files edited !! path_join objectsPath "abc" = None)
    as H2 by (vm_compute; reflexivity).
  assert (segment "abc" = true) as H3 by reflexivity.
  split; [exact H1|]. split; [exact H3|]. split; [exact H2|].
  exact (show_file_missing_parent all_added edited t2 "second" (JSON.Arr []) "abc"
           "a.txt" (hashObject "hello") "hello" H1 H3 H2).
Defined.

Lemma show_file_missing_blob_witness :
  segment "abc" = true
  ∧ files fresh !! path_join objectsPath "abc" = None
  ∧ showFile all_added JSON.Null (fileEntry "a.txt" "abc") fresh
    = (Thrown (ENOENT (path_join objectsPath "abc")),
       mkWorld (files fresh) (console fresh ++ [Log "File: a.txt"])).
Proof.
  split; [reflexivity|]. split; [reflexivity|].
  exact (show_file_missing_blob all_added fresh JSON.Null "a.txt" "abc" eq_refl eq_refl).
Defined.

Lemma show_rejects_non_json_witness :
  files edited !! path_join objectsPath (hashObject "hello") = Some "hello"
  ∧ not_json_start "hello" = true
  ∧ showCommitDiff all_added (hashObject "hello") edited = (Thrown SyntaxError, edited).
Proof.
  assert (files edited !! path_join objectsPath (hashObject "hello") = Some "hello")
    as H1 by (vm_compute; reflexivity).
  assert (not_json_start "hello" = true) as H2 by reflexivity.
  split; [exact H1|]. split; [exact H2|].
  exact (show_rejects_non_json all_added edited (hashObject "hello") "hello" H1 H2).
Defined.

Lemma session_removes_no_file_witness :
  is_Some (files tree !! "a.txt")
  ∧ is_Some (files (session all_added busy tree) !! "a.txt").
Proof.
  assert (is_Some (files tree !! "a.txt")) as H by (exists "hello"; reflexivity).
  split; [exact H|]. exact (session_removes_no_file all_added busy tree "a.txt" H).
Defined.

Lemma addressed_without_objects (w : World) :
  (∀ h, files w !! path_join objectsPath h = None) → addressed w.
Proof. intros Hnone h text Hobj. by rewrite Hnone in Hobj. Qed.

Lemma tree_without_objects (h : string) : files tree !! path_join objectsPath h = None.
Proof.
  unfold tree, fresh. cbn [files].
  rewrite !lookup_insert_ne; [|intros H; pose proof (object_path_first h) as F;
                                rewrite <- H in F; discriminate F..].
  change (files (init (mkWorld ∅ [])).2)
    with (<[indexPath := "[]"]> (<[headPath := ""]> (∅ : gmap string string))).
  by rewrite !lookup_insert_ne, lookup_empty by auto.
Qed.

Lemma session_keeps_addressing_witness :
  addressed tree ∧ addressed (session all_added busy tree).
Proof.
  assert (addressed tree) as H
    by exact (addressed_without_objects tree tree_without_objects).
  split; [exact H|]. exact (session_keeps_addressing all_added busy tree H).
Defined.

Lemma session_keeps_index_witness :
  index_is_array tree
  ∧ index_is_array (session all_added busy tree)
  ∧ (commit t2 "second" (session all_added busy tree)).1 = Returned tt.
Proof.
  assert (index_is_array tree) as H by (exists []; reflexivity).
  split; [exact H|].
  destruct (session_keeps_index all_added busy tree H) as (Hindex & Hcommit & _).
  split; [exact Hindex|]. exact (Hcommit t2 "second").
Defined.

Lemma head_resolves_empty (w : World) :
  files w !! headPath = Some "" → head_resolves w.
Proof. intros Hhead h Hh Hne. rewrite Hhead in Hh. by simplify_eq. Qed.

Lemma session_keeps_head_witness :
  head_resolves tree ∧ head_resolves (session all_added busy tree).
Proof.
  assert (head_resolves tree) as H by exact (head_resolves_empty tree eq_refl).
  split; [exact H|]. exact (session_keeps_head all_added busy tree H).
Defined.

End ScenarioMore.


(** ** Content addressing of the bytes on disk *)

Module DiskFacts.
Import Coeus CoeusFacts Disk.

Lemma mount_lookup (disk : gmap string string) (path bytes : string) :
  disk !! path = Some bytes →
  files (mount disk) !! path = Some (utf8_decode bytes).
Proof. intros H. unfold mount. cbn [files]. by rewrite lookup_fmap, H. Qed.

(** What [add] stores for any bytes: the decoded text, under its digest. *)
Lemma add_stores_decoded (disk : gmap string string) (fileToBeAdded bytes : string) :
  disk !! fileToBeAdded = Some bytes →
  let text := utf8_decode bytes in
  let w' := (add fileToBeAdded (mount disk)).2 in
  files w' !! path_join objectsPath (hashObject text) = Some text
  ∧ getFileContent (Some (JSON.Str (hashObject text))) w' = (Returned text, w').
Proof.
  intros H. apply (content_addressing (mount disk) fileToBeAdded (utf8_decode bytes)).
  by apply mount_lookup.
Qed.

(** C1 (as amended). For every file whose bytes [b] are well-formed UTF-8,
    whatever the state of the repository: the digest [hashObject b] depends on
    [b] alone, and after [add] the object read back under that digest is
    exactly [b]. *)
Theorem content_addressing_text (disk : gmap string string)
    (fileToBeAdded b : string) :
  disk !! fileToBeAdded = Some b →
  well_formed b →
  let w' := (add fileToBeAdded (mount disk)).2 in
  files w' !! path_join objectsPath (hashObject b) = Some b
  ∧ getFileContent (Some (JSON.Str (hashObject b))) w' = (Returned b, w').
Proof.
  intros Hfile Hwf. pose proof (add_stores_decoded disk fileToBeAdded b Hfile) as H.
  cbn zeta in H. unfold well_formed in Hwf. by rewrite Hwf in H.
Qed.

Lemma content_addressing_text_witness :
  text_disk !! "note.txt" = Some "déjà vu"
  ∧ well_formed "déjà vu"
  ∧ (let w' := (add "note.txt" (mount text_disk)).2 in
     files w' !! path_join objectsPath (hashObject "déjà vu") = Some "déjà vu"
     ∧ getFileContent (Some (JSON.Str (hashObject "déjà vu"))) w'
       = (Returned "déjà vu", w')).
Proof.
  assert (text_disk !! "note.txt" = Some "déjà vu") as H1 by reflexivity.
  assert (well_formed "déjà vu") as H2 by reflexivity.
  split; [exact H1|]. split; [exact H2|].
  exact (content_addressing_text text_disk "note.txt" "déjà vu" H1 H2).
Defined.

(** C1, as stated for every byte sequence, fails on a file that holds the
    single byte ff: [add] reads it as U+FFFD, so nothing is stored under the
    digest of the file's byte, and the one object [add] stores holds the three
    bytes ef bf bd, not the byte of the file. *)
Lemma binary_file_is_not_read_back :
  let w' := (add "bin" (mount binary_disk)).2 in
  binary_disk !! "bin" = Some binary
  ∧ files w' !! path_join objectsPath (hashObject binary) = None
  ∧ (getFileContent (Some (JSON.Str (hashObject binary))) w').1
    = Thrown (ENOENT (path_join objectsPath (hashObject binary)))
  ∧ object_store w' = {[path_join objectsPath (hashObject replacement) := replacement]}
  ∧ replacement ≠ binary.
Proof.
  intros w'.
  split; [reflexivity|].
  split; [vm_compute; reflexivity|].
  split; [vm_compute; reflexivity|].
  split; [vm_compute; reflexivity|]. discriminate.
Qed.

End DiskFacts.

(** ** Staging and committing two files *)

Module StagingFacts.
Import Coeus CoeusFacts Scenario.

(** C2. From a staging index that holds any sequence of file entries,
    [add(f1); add(f2); commit(m)] returns normally and leaves the index
    holding the empty array.  Head then names an object which, read back and
    parsed, has as [files] the entries staged before followed by two entries:
    an object whose [path] is [f1] and whose [hash] is the hash of the content
    the first [add] read, then an object whose [path] is [f2] and whose [hash]
    is the hash of the content the second [add] read. *)
Theorem staging_round_trip (w : World) (staged : list (string * string))
    (f1 f2 b1 b2 now message : string) :
  stagingIndex w = Some (JSON.Arr (Reconstruction.entryValue <$> staged)) →
  files w !! f1 = Some b1 →
  files (add f1 w).2 !! f2 = Some b2 →
  ∃ w' commitHash members e1 e2,
    (add f1 ;; add f2 ;; commit now message) w = (Returned tt, w')
    ∧ stagingIndex w' = Some (JSON.Arr [])
    ∧ getCurrentHead w' = (Returned (Some commitHash), w')
    ∧ storedObject w' commitHash = Some (JSON.Obj members)
    ∧ member "files" members
      = Some (JSON.Arr ((Reconstruction.entryValue <$> staged) ++ [e1; e2]))
    ∧ e1 = JSON.Obj [("path", JSON.Str f1); ("hash", JSON.Str (hashObject b1))]
    ∧ e2 = JSON.Obj [("path", JSON.Str f2); ("hash", JSON.Str (hashObject b2))]
    ∧ prop (Some e1) "path" w' = (Returned (Some (JSON.Str f1)), w')
    ∧ prop (Some e1) "hash" w' = (Returned (Some (JSON.Str (hashObject b1))), w')
    ∧ prop (Some e2) "path" w' = (Returned (Some (JSON.Str f2)), w')
    ∧ prop (Some e2) "hash" w' = (Returned (Some (JSON.Str (hashObject b2))), w').
Proof.
  intros Hindex Hf1 Hf2.
  destruct (staging_round_trip_record w (Reconstruction.entryValue <$> staged)
              f1 f2 b1 b2 now message Hindex Hf1 Hf2)
    as (w' & Hrun & Hempty & Hhead & Hobj & _).
  exists w'. eexists _, _, _, _.
  split; [exact Hrun|]. split; [exact Hempty|].
  split; [rewrite getCurrentHead_spec, Hhead; reflexivity|].
  split; [exact Hobj|].
  split; [reflexivity|]. by repeat split.
Qed.

Lemma staging_round_trip_witness :
  stagingIndex tree = Some (JSON.Arr [])
  ∧ files tree !! "a.txt" = Some "hello"
  ∧ files (add "a.txt" tree).2 !! "b.txt" = Some "world"
  ∧ ∃ w' commitHash members,
      (add "a.txt" ;; add "b.txt" ;; commit t1 "first") tree = (Returned tt, w')
      ∧ stagingIndex w' = Some (JSON.Arr [])
      ∧ getCurrentHead w' = (Returned (Some commitHash), w')
      ∧ storedObject w' commitHash = Some (JSON.Obj members)
      ∧ member "files" members
        = Some (JSON.Arr
                  [JSON.Obj [("path", JSON.Str "a.txt");
                             ("hash", JSON.Str (hashObject "hello"))];
                   JSON.Obj [("path", JSON.Str "b.txt");
                             ("hash", JSON.Str (hashObject "world"))]]).
Proof.
  assert (stagingIndex tree = Some (JSON.Arr [])) as H1 by reflexivity.
  assert (files tree !! "a.txt" = Some "hello") as H2 by reflexivity.
  assert (files (add "a.txt" tree).2 !! "b.txt" = Some "world") as H3
    by (vm_compute; reflexivity).
  split; [exact H1|]. split; [exact H2|]. split; [exact H3|].
  destruct (staging_round_trip tree [] "a.txt" "b.txt" "hello" "world" t1 "first"
              H1 H2 H3)
    as (w' & h & members & e1 & e2 & Hrun & Hindex & Hhead & Hobj & Hfiles
        & He1 & He2 & _).
  exists w', h, members.
  split; [exact Hrun|]. split; [exact Hindex|]. split; [exact Hhead|].
  split; [exact Hobj|]. rewrite Hfiles, He1, He2. reflexivity.
Defined.

End StagingFacts.

(** ** [show] over all the files of a commit *)

Module ReconstructionFacts.
Import Coeus CoeusFacts Session Scenario StoreFacts HistoryFacts Reconstruction.

Lemma parent_entry_none (filePath : string) (entries : list (string * string)) :
  parent_entry filePath entries = None →
  Forall (λ e, ∃ p h, e = fileEntry p h ∧ p ≠ filePath) (entryValue <$> entries).
Proof.
  unfold parent_entry. induction entries as [|[p h] entries IH]; [constructor|].
  cbn [List.find fst]. case_bool_decide as Hp; [done|]. intros Hnone.
  constructor; [by exists p, h|by apply IH].
Qed.

Lemma parent_entry_some (filePath old : string) (entries : list (string * string)) :
  parent_entry filePath entries = Some old →
  ∃ pre post,
    entryValue <$> entries = pre ++ fileEntry filePath old :: post
    ∧ Forall (λ e, ∃ p h, e = fileEntry p h ∧ p ≠ filePath) pre.
Proof.
  unfold parent_entry. induction entries as [|[p h] entries IH]; [done|].
  cbn [List.find fst]. case_bool_decide as Hp.
  - intros [= <-]. subst p. by exists [], (entryValue <$> entries).
  - intros (pre & post & Heq & Hpre)%IH.
    exists (fileEntry p h :: pre), post. split.
    + rewrite fmap_cons, Heq. reflexivity.
    + constructor; [by exists p, h|done].
Qed.

Section Run.

Variable diffLines : string → string → list Change.

Lemma showFile_entry (w : World) (now message : string) (commitFiles : JSON.value)
    (parent : option string) (view : Parent) (e : string * string) :
  parent_known w parent view →
  blobs_stored w view e →
  showFile diffLines (commitRecord now message commitFiles parent) (entryValue e) w
  = (Returned tt, mkWorld (files w) (console w ++ file_lines diffLines w view e)).
Proof.
  intros Hparent [[content Hblob] Hold]. unfold file_lines, blob. rewrite Hblob.
  cbn [default from_option id].
  destruct view as [|entries]; cbn [parent_known] in Hparent.
  - by apply showFile_first_commit.
  - destruct Hparent as (ph & pnow & pmessage & gp & -> & Hph & Hstored).
    destruct (parent_entry e.1 entries) as [old|] eqn:Hentry.
    + destruct (Hold old eq_refl) as [oldText HoldText]. rewrite HoldText.
      cbn [default from_option id].
      destruct (parent_entry_some _ _ _ Hentry) as (pre & post & Heq & Hpre).
      rewrite Heq in Hstored.
      by apply (showFile_diff diffLines w now message commitFiles ph pnow pmessage
                  pre post gp e.1 e.2 content old oldText).
    + by apply (showFile_new_file diffLines w now message commitFiles ph pnow pmessage
                  (entryValue <$> entries) gp e.1 e.2 content);
        [..|apply parent_entry_none].
Qed.

Lemma for_each_showFile (now message : string) (commitFiles : JSON.value)
    (parent : option string) (view : Parent) (entries : list (string * string)) :
  ∀ w, parent_known w parent view →
    Forall (blobs_stored w view) entries →
    for_each (showFile diffLines (commitRecord now message commitFiles parent))
             (entryValue <$> entries) w
    = (Returned tt,
       mkWorld (files w)
               (console w ++ concat (map (file_lines diffLines w view) entries))).
Proof.
  induction entries as [|e entries IH]; intros w Hparent Hblobs.
  - cbn. by rewrite app_nil_r, world_eta.
  - apply Forall_cons in Hblobs as [Hblob Hblobs].
    rewrite fmap_cons. cbn [for_each].
    rewrite (bind_returned _ _ _ _ _
               (showFile_entry w now message commitFiles parent view e Hparent Hblob)).
    rewrite (IH (mkWorld (files w) _)); [|by destruct view|done].
    cbn [files console concat map]. by rewrite <- !app_assoc.
Qed.

(** C7. [show] of a stored commit whose blobs are stored prints the
    heading and then, for every file entry in order, the path, the content
    and: the "First commit" marker when the commit has no parent (its
    [parent] is [null] or empty); the "New file in this commit" marker when
    the stored parent lists no entry with that path; the diff against the
    parent's first entry with that path otherwise.  So for a path missing
    from the parent, and for every file of a commit without parent, the three
    lines are all that is printed, whatever the diff engine: no diff is
    computed. *)
Theorem show_markers (w : World) (commitHash now message : string)
    (parent : option string) (view : Parent) (entries : list (string * string)) :
  storedObject w commitHash
  = Some (commitRecord now message (JSON.Arr (entryValue <$> entries)) parent) →
  parent_known w parent view →
  Forall (blobs_stored w view) entries →
  showCommitDiff diffLines commitHash w
  = (Returned tt,
     mkWorld (files w)
             (console w
                ++ Log "Changes in the last commit are: "
                :: concat (map (file_lines diffLines w view) entries)))
  ∧ (∀ e, view = NoParent →
          file_lines diffLines w view e
          = [Log ("File: " +:+ e.1); Log (blob w e.2); Log "First commit"])
  ∧ (∀ e parentEntries, view = ParentFiles parentEntries →
          e.1 ∉ parentEntries.*1 →
          file_lines diffLines w view e
          = [Log ("File: " +:+ e.1); Log (blob w e.2);
             Log "New file in this commit"]).
Proof.
  intros (text & Hobj & Hparse)%storedObject_inv Hparent Hblobs.
  split; [|split].
  - unfold showCommitDiff.
    rewrite (bind_returned _ _ _ _ _ (getCommitData_stored _ _ _ Hobj)).
    rewrite (bind_returned _ _ _ _ _ (JSON_parse_text _ _ _ Hparse)).
    cbn [truthy commitRecord negb].
    unfold bind at 1, console_log at 1, emit at 1.
    erewrite bind_returned; [|reflexivity]. cbn [member].
    rewrite decide_False, decide_True by done.
    erewrite bind_returned; [|reflexivity].
    pose proof (for_each_showFile now message (JSON.Arr (entryValue <$> entries))
                  parent view entries
                  (mkWorld (files w)
                           (console w ++ [Log "Changes in the last commit are: "])))
      as Hloop.
    cbn [commitRecord] in Hloop. rewrite Hloop; [|by destruct view|done].
    cbn [files console]. by rewrite <- app_assoc.
  - by intros e ->.
  - intros e pes -> Hnew. unfold file_lines.
    assert (parent_entry e.1 pes = None) as ->; [|done].
    unfold parent_entry. destruct (List.find _ pes) as [[p h]|] eqn:Hfind; [|done].
    apply find_some in Hfind as [Hin Hp]. cbn [fst] in Hp.
    apply bool_decide_eq_true_1 in Hp.
    destruct Hnew. apply list_elem_of_fmap. exists (p, h). split; [by rewrite <- Hp|].
    by apply list_elem_of_In.
Qed.

End Run.

Lemma show_markers_witness :
  storedObject two_commits (hashObject (JSON.stringify commit_one)) = Some commit_one
  ∧ storedObject two_commits (hashObject (JSON.stringify commit_two)) = Some commit_two
  ∧ showCommitDiff all_added (hashObject (JSON.stringify commit_one)) two_commits
    = (Returned tt,
       mkWorld (files two_commits)
               (console two_commits
                  ++ [Log "Changes in the last commit are: ";
                      Log "File: a.txt"; Log "hello"; Log "First commit"]))
  ∧ showCommitDiff all_added (hashObject (JSON.stringify commit_two)) two_commits
    = (Returned tt,
       mkWorld (files two_commits)
               (console two_commits
                  ++ [Log "Changes in the last commit are: ";
                      Log "File: b.txt"; Log "world"; Log "New file in this commit"])).
Proof.
  assert (storedObject two_commits (hashObject (JSON.stringify commit_one))
          = Some commit_one) as H1 by (vm_compute; reflexivity).
  assert (storedObject two_commits (hashObject (JSON.stringify commit_two))
          = Some commit_two) as H2 by (vm_compute; reflexivity).
  assert (files two_commits !! path_join objectsPath (hashObject "hello")
          = Some "hello") as Ha by (vm_compute; reflexivity).
  assert (files two_commits !! path_join objectsPath (hashObject "world")
          = Some "world") as Hb by (vm_compute; reflexivity).
  assert (blobs_stored two_commits NoParent ("a.txt", hashObject "hello")) as Hblobs1.
  { split; [exists "hello"; exact Ha|exact I]. }
  assert (parent_known two_commits (Some "") NoParent) as Hroot
    by (vm_compute; reflexivity).
  assert (parent_known two_commits (Some (hashObject (JSON.stringify commit_one)))
            (ParentFiles [("a.txt", hashObject "hello")])) as Hparent.
  { exists (hashObject (JSON.stringify commit_one)), t1, "first", (Some "").
    split; [reflexivity|]. split; [apply hashObject_nonempty|exact H1]. }
  assert (parent_entry "b.txt" [("a.txt", hashObject "hello")] = None) as Hnone
    by (vm_compute; reflexivity).
  assert (blobs_stored two_commits (ParentFiles [("a.txt", hashObject "hello")])
            ("b.txt", hashObject "world")) as Hblobs2.
  { split; [exists "world"; exact Hb|]. intros old Hold.
    change (parent_entry "b.txt" [("a.txt", hashObject "hello")] = Some old) in Hold.
    rewrite Hnone in Hold. discriminate Hold. }
  assert (concat (map (file_lines all_added two_commits NoParent)
                      [("a.txt", hashObject "hello")])
          = [Log "File: a.txt"; Log "hello"; Log "First commit"]) as Hlines1
    by (vm_compute; reflexivity).
  assert (concat (map (file_lines all_added two_commits
                         (ParentFiles [("a.txt", hashObject "hello")]))
                      [("b.txt", hashObject "world")])
          = [Log "File: b.txt"; Log "world"; Log "New file in this commit"]) as Hlines2
    by (vm_compute; reflexivity).
  split; [exact H1|]. split; [exact H2|]. split.
  - pose proof (proj1 (show_markers all_added two_commits
                         (hashObject (JSON.stringify commit_one)) t1 "first" (Some "")
                         NoParent [("a.txt", hashObject "hello")] H1 Hroot
                         (Forall_cons_2 _ _ _ Hblobs1 (Forall_nil_2 _)))) as H.
    rewrite Hlines1 in H. exact H.
  - pose proof (proj1 (show_markers all_added two_commits
                         (hashObject (JSON.stringify commit_two)) t2 "second"
                         (Some (hashObject (JSON.stringify commit_one)))
                         (ParentFiles [("a.txt", hashObject "hello")])
                         [("b.txt", hashObject "world")] H2 Hparent
                         (Forall_cons_2 _ _ _ Hblobs2 (Forall_nil_2 _)))) as H.
    rewrite Hlines2 in H. exact H.
Defined.

End ReconstructionFacts.
